(** * MaxPoolProgram: the WebGPU max-pooling kernel generator

    A model of [src/backends/webgpu/src/kernels/maxpool_webgpu.ts].

    The TypeScript constructor computes a dispatch size and fills a GLSL
    template.  The model has two layers:

    - the generator ([JS], [MaxPoolProgram_new]): JavaScript numbers, the
      [arrayProduct] helper, the dispatch computation and the template
      instance ([UserCode]) with every hole of the template as a field;
    - the emitted shader ([GLSL], [Shader]): 32-bit integers with their
      wrap-around, the statements [generateGetOutputCoords] emits, and the
      functions [getValue] and [main] of the template, run for one
      invocation. *)

From Stdlib Require Import ZArith QArith Qround Lia Floats Ascii.
From stdpp Require Import base option list strings gmap pretty.

#[local] Open Scope Z_scope.

(** ** JavaScript values *)

Module JS.

(** A [number] that holds an integer, or [None] for what is not one:
    [undefined] read past the end of an array, and the [NaN] that
    arithmetic makes of it.  Shapes and geometry are integers, far below
    2^53, so integer arithmetic on them is exact. *)
Definition number : Type := option Z.

Definition NaN : number := None.

(** [a * b] *)
Definition mul (a b : number) : number :=
  match a, b with
  | Some x, Some y => Some (x * y)
  | _, _ => NaN
  end.

(** [a / b]: a rational; a zero divisor gives no finite value. *)
Definition div (a b : number) : option Q :=
  match a, b with
  | Some x, Some y => if decide (y = 0) then None else Some (inject_Z x / inject_Z y)%Q
  | _, _ => None
  end.

(** [Math.ceil] *)
Definition Math_ceil (q : option Q) : number :=
  match q with
  | Some q => Some (Qceiling q)
  | None => NaN
  end.

(** The outcome of a call: a value, or [throw new Error(msg)]. *)
Inductive result (A : Type) : Type :=
| Ok (a : A)
| Throw (msg : string).
#[global] Arguments Ok {A} a.
#[global] Arguments Throw {A} msg.

#[global] Instance result_ret : MRet result := λ A a, Ok a.
#[global] Instance result_bind : MBind result := λ A B f m,
  match m with
  | Ok a => f a
  | Throw msg => Throw msg
  end.

(** A number in a template string: [`${n}`]. *)
Definition show_nat (n : option nat) : string :=
  match n with
  | Some n => pretty n
  | None => "undefined"
  end.

End JS.
Import JS.

(** ** The geometry handed to the constructor *)

(** [convInfo.padInfo] *)
Record PadInfo : Type := {
  top : Z;
  left : Z
}.

(** [Conv2DInfo] of tfjs-core's conv_util, with the fields the constructor
    reads.  The shapes are arrays: nothing at run time fixes their length. *)
Record Conv2DInfo : Type := {
  strideHeight : Z;
  strideWidth : Z;
  dilationHeight : Z;
  dilationWidth : Z;
  padInfo : PadInfo;
  effectiveFilterHeight : Z;
  effectiveFilterWidth : Z;
  inHeight : Z;
  inWidth : Z;
  inShape : list Z;
  outShape : list Z
}.

(** ** The dispatch size *)

(** [const dispatchArrangement = [[1], [2], [0, 3]];] *)
Definition dispatchArrangement : list (list nat) := [[1]; [2]; [0; 3]]%nat.

(** [tileSize: [number, number, number] = [2, 2, 1];] *)
Definition tileSize : list Z := [2; 2; 1].

(** [arrayProduct]: throws on an empty array, else multiplies from 1, left
    to right. *)
Definition arrayProduct (arr : list number) : result number :=
  if decide (length arr = 0%nat) then
    Throw "Cannot find product of empty array."
  else
    Ok (foldl mul (Some 1) arr).

(** [dispatchArrangement[i].map(d => this.outputShape[d])] *)
Definition groupShape (outputShape : list Z) (arr : list nat) : list number :=
  (λ d, outputShape !! d) <$> arr.

(** One entry of [this.dispatch]:
    [Math.ceil(arrayProduct(dispatchArrangement[i].map(...)) / this.tileSize[i])]. *)
Definition dispatchAxis (outputShape : list Z) (i : nat) : result number :=
  product ← arrayProduct (groupShape outputShape (dispatchArrangement !!! i));
  mret (Math_ceil (div product (tileSize !! i))).

(** [this.dispatch = [..., ..., ...]], the entries evaluated in order. *)
Definition computeDispatch (outputShape : list Z) : result (number * number * number) :=
  d0 ← dispatchAxis outputShape 0;
  d1 ← dispatchAxis outputShape 1;
  d2 ← dispatchAxis outputShape 2;
  mret (d0, d1, d2).

(** ** The emitted shading language *)

Module GLSL.

(** [uint]: 32 bits, arithmetic modulo 2^32. *)
Definition uint32 (z : Z) : Z := z mod 2 ^ 32.

(** [int]: 32 bits, two's complement. *)
Definition int32 (z : Z) : Z := (z + 2 ^ 31) mod 2 ^ 32 - 2 ^ 31.

(** A component of [gl_GlobalInvocationID]. *)
Inductive component : Type := X | Y | Z_.

(** [gl_GlobalInvocationID], a [uvec3]. *)
Record uvec3 : Type := { gx : Z; gy : Z; gz : Z }.

Definition uvec3_ok (gid : uvec3) : Prop :=
  0 <= gx gid < 2 ^ 32 ∧ 0 <= gy gid < 2 ^ 32 ∧ 0 <= gz gid < 2 ^ 32.

Definition select (gid : uvec3) (c : component) : Z :=
  match c with
  | X => gx gid
  | Y => gy gid
  | Z_ => gz gid
  end.

(** The [uint] expressions [generateGetOutputCoords] emits.  A literal is
    the decimal numeral of a JavaScript number and denotes that number;
    [NaN] and [undefined] are no numerals. *)
Inductive expr : Type :=
| EInvocation (c : option component)   (* gl_GlobalInvocationID.c *)
| EVar (v : string)
| ELit (n : number)
| EDiv (a b : expr)
| ESub (a b : expr)
| EMul (a b : expr).

(** The statements it emits. *)
Inductive stmt : Type :=
| SDecl (v : string) (e : expr)        (* uint v = e; *)
| SSubAssign (v : string) (e : expr).  (* v -= e; *)

(** The local [uint] variables of [getOutputCoords]. *)
Abbreviation locals := (gmap string Z).

Fixpoint eval (gid : uvec3) (σ : locals) (e : expr) : option Z :=
  match e with
  | EInvocation c => select gid <$> c
  | EVar v => σ !! v
  | ELit n => n
  | EDiv a b =>
      x ← eval gid σ a;
      y ← eval gid σ b;
      if decide (y = 0) then None else Some (uint32 (x / y))
  | ESub a b =>
      x ← eval gid σ a;
      y ← eval gid σ b;
      Some (uint32 (x - y))
  | EMul a b =>
      x ← eval gid σ a;
      y ← eval gid σ b;
      Some (uint32 (x * y))
  end.

(** A declaration of a name already declared in the function does not
    compile; neither does a use of an undeclared one. *)
Definition exec (gid : uvec3) (σ : locals) (s : stmt) : option locals :=
  match s with
  | SDecl v e =>
      match σ !! v with
      | Some _ => None
      | None => x ← eval gid σ e; Some (<[v := x]> σ)
      end
  | SSubAssign v e =>
      old ← σ !! v;
      x ← eval gid σ e;
      Some (<[v := uint32 (old - x)]> σ)
  end.

Fixpoint execs (gid : uvec3) (σ : locals) (body : list stmt) : option locals :=
  match body with
  | [] => Some σ
  | s :: body => σ' ← exec gid σ s; execs gid σ' body
  end.

(** The emitted [getOutputCoords]:
    [dtype getOutputCoords() { body  return dtype(dimensions); }]. *)
Record CoordsFunction : Type := {
  cf_dtype : string;
  cf_body : list stmt;
  cf_dimensions : list string
}.

(** Calling it: the body runs from no locals, and the constructor of the
    integer vector type converts each [uint] to [int]. *)
Definition callCoords (f : CoordsFunction) (gid : uvec3) : option (list Z) :=
  σ ← execs gid ∅ (cf_body f);
  ds ← mapM (λ v, σ !! v) (cf_dimensions f);
  Some (int32 <$> ds).

(** [ivec4(args)]: four components, or one scalar for all four. *)
Definition ivec4 (args : list Z) : option (list Z) :=
  match args with
  | [a] => Some [a; a; a; a]
  | [_; _; _; _] => Some args
  | _ => None
  end.

(** [for (int i = 0; i < bound; i += step) body]: [body] gives the
    accumulated state after one pass ([continue] included), [None] if it
    is stuck; the loop is cut off when [fuel] runs out. *)
Fixpoint forLoop {A : Type} (fuel : nat) (bound step : Z)
    (body : Z → A → option A) (i : Z) (acc : A) : option A :=
  match fuel with
  | O => None
  | S fuel =>
      if decide (i < bound) then
        acc' ← body i acc;
        forLoop fuel bound step body (int32 (i + step)) acc'
      else Some acc
  end.

End GLSL.
Import GLSL.

(** ** The generator of [getOutputCoords] *)

(** Modelled from the spec: [util.computeStrides] of tfjs-core (not under
    src/), "the row-major strides of the shape ... (stride of the last
    dimension is 1; each preceding stride is the product of all shape sizes
    of dimensions after it)".  The last stride, 1, is left implicit: a shape
    of rank D has D-1 strides, which is what the generator's loop, reading
    [arr[j + 1]] at the last stride, relies on. *)
Fixpoint computeStrides (shape : list number) : list number :=
  match shape with
  | [] => []
  | _ :: rest =>
      match rest with
      | [] => []
      | _ :: _ => foldr mul (Some 1) rest :: computeStrides rest
      end
  end.

(** [const globalInvocationPositions = ['x', 'y', 'z'];] *)
Definition globalInvocationPositions : list component := [X; Y; Z_].

(** [`d${n}`] and [`index${i}`] *)
Definition d_ (n : option nat) : string := "d" +:+ show_nat n.
Definition index_ (i : nat) : string := "index" +:+ pretty i.

(** The statements emitted for [dispatchArrangement[i]] (one pass of the
    loop over [i]). *)
Definition gatherDimensions (outputShape : list Z) (i : nat) (arr : list nat) : list stmt :=
  let gid := EInvocation (globalInvocationPositions !! i) in
  if decide (length arr = 1%nat) then
    [SDecl (d_ (arr !! 0%nat)) gid]
  else
    let strides := computeStrides (groupShape outputShape arr) in
    SDecl (index_ i) gid ::
    mjoin (imap (λ j s,
      SDecl (d_ (arr !! j)) (EDiv (EVar (index_ i)) (ELit s)) ::
      (if decide (S j = length strides) then
         SDecl (d_ (arr !! S j))
               (ESub (EVar (index_ i)) (EMul (EVar (d_ (arr !! j))) (ELit s)))
       else
         SSubAssign (index_ i) (EMul (EVar (d_ (arr !! j))) (ELit s))) :: []) strides).

Section Generator.

(** [getCoordsDataType] of `../shader_preprocessor` is not under src/: the
    name of the GLSL type for coordinates of a rank, or an exception. *)
Variable getCoordsDataType : nat → result string.

(** [generateGetOutputCoords(shape)] *)
Definition generateGetOutputCoords (outputShape shape : list Z) : result CoordsFunction :=
  dtype ← getCoordsDataType (length shape);
  let gatherDimensionsStr :=
    mjoin (imap (gatherDimensions outputShape) dispatchArrangement) in
  let dimensions := (λ i, d_ (Some i)) <$> seq 0 (length shape) in
  mret {| cf_dtype := dtype;
          cf_body := gatherDimensionsStr;
          cf_dimensions := dimensions |}.

End Generator.

(** ** The template instance and the program *)

(** [this.userCode]: the template with its holes filled.  Each field is one
    interpolation of the template string; what lies between them is fixed
    text, whose meaning [Shader] below gives. *)
Record UserCode : Type := {
  uc_strides : Z * Z;                 (* ivec2(${strideHeight}, ${strideWidth}) *)
  uc_pads : Z * Z;                    (* ivec2(${padTop}, ${padLeft}) *)
  uc_inWidth : Z;                     (* xC >= ${convInfo.inWidth} *)
  uc_xShape : list Z;                 (* ivec4(${convInfo.inShape.join(',')}) *)
  uc_getOutputCoords : CoordsFunction;(* ${generateGetOutputCoords(this.outputShape)} *)
  uc_outputShape : list number;       (* ivec4(${this.outputShape[0]}, ..., ${this.outputShape[3]}) *)
  uc_effectiveFilterHeight : Z;       (* wR<${effectiveFilterHeight} *)
  uc_dilationHeight : Z;              (* wR += ${dilationHeight} *)
  uc_inHeight : Z;                    (* xR >= ${convInfo.inHeight} *)
  uc_effectiveFilterWidth : Z;        (* wC<${effectiveFilterWidth} *)
  uc_dilationWidth : Z                (* wC += ${dilationWidth}; wC * ${dilationWidth} *)
}.

(** An instance of the class. *)
Record MaxPoolProgram : Type := {
  outputShape : list Z;
  userCode : UserCode;
  dispatch : number * number * number;
  variableNames : list string;
  uniforms : string;
  program_tileSize : list Z
}.

Section Constructor.

Variable getCoordsDataType : nat → result string.

(** [constructor(convInfo: Conv2DInfo)] *)
Definition MaxPoolProgram_new (convInfo : Conv2DInfo) : result MaxPoolProgram :=
  let strideHeight := strideHeight convInfo in
  let strideWidth := strideWidth convInfo in
  let dilationHeight := dilationHeight convInfo in
  let dilationWidth := dilationWidth convInfo in
  let padTop := top (padInfo convInfo) in
  let padLeft := left (padInfo convInfo) in
  let effectiveFilterHeight := effectiveFilterHeight convInfo in
  let effectiveFilterWidth := effectiveFilterWidth convInfo in
  let outputShape := outShape convInfo in
  let xShape := inShape convInfo in
  dispatch ← computeDispatch outputShape;
  getOutputCoords ← generateGetOutputCoords getCoordsDataType outputShape outputShape;
  mret {|
    outputShape := outputShape;
    userCode := {|
      uc_strides := (strideHeight, strideWidth);
      uc_pads := (padTop, padLeft);
      uc_inWidth := inWidth convInfo;
      uc_xShape := xShape;
      uc_getOutputCoords := getOutputCoords;
      uc_outputShape := (λ i, outputShape !! i) <$> [0; 1; 2; 3]%nat;
      uc_effectiveFilterHeight := effectiveFilterHeight;
      uc_dilationHeight := dilationHeight;
      uc_inHeight := inHeight convInfo;
      uc_effectiveFilterWidth := effectiveFilterWidth;
      uc_dilationWidth := dilationWidth
    |};
    dispatch := dispatch;
    variableNames := ["x"];
    uniforms := "uvec4 inpShape, outShape; uvec2 pad, stride;";
    program_tileSize := tileSize
  |}.

End Constructor.

(** ** The emitted program, run for one invocation *)

(** Modelled from the spec: [getFlatIndex(coords, shape) -> index] of the
    shader preamble (not under src/), the flat index of [coords] in a tensor
    of [shape] "using row-major strides". *)
Definition getFlatIndex (coords shape : list Z) : Z :=
  foldl (λ acc cs, acc * cs.2 + cs.1) 0 (zip coords shape).

(** Modelled from the spec: [setOutput(index, value)] of the shader preamble
    (not under src/) "writes the final maximum to the output buffer at the
    computed flat index".  An invocation's effect is the write it makes. *)
Definition setOutput {float : Type} (index : Z) (value : float) : Z * float :=
  (index, value).

(** The declarations of a uniform block such as [this.uniforms], read as GLSL
    reads them: [type name, name; type name;] gives each name its type. *)
Module Declarations.

Definition is_word (c : Ascii.ascii) : bool :=
  let n := Ascii.N_of_ascii c in
  ((48 <=? n) && (n <=? 57) || (65 <=? n) && (n <=? 90) ||
   (97 <=? n) && (n <=? 122) || (n =? 95))%N.

Definition flush (word : string) : list string :=
  match word with
  | EmptyString => []
  | _ => [word]
  end.

(** Words, commas and semicolons; blanks separate. *)
Fixpoint tokens (word : string) (s : string) : list string :=
  match s with
  | EmptyString => flush word
  | String c s =>
      if is_word c then tokens (word +:+ String c EmptyString) s
      else if Ascii.eqb c " "%char then flush word ++ tokens EmptyString s
      else flush word ++ String c EmptyString :: tokens EmptyString s
  end.

(** The first word after a semicolon is a type, the others are names. *)
Fixpoint declared (type : option string) (ts : list string) : list (string * string) :=
  match ts with
  | [] => []
  | t :: ts =>
      if String.eqb t ";" then declared None ts
      else if String.eqb t "," then declared type ts
      else match type with
           | None => declared (Some t) ts
           | Some ty => (ty, t) :: declared type ts
           end
  end.

Definition parse (s : string) : list (string * string) :=
  declared None (tokens EmptyString s).

End Declarations.

(** GLSL floats, as far as the template uses them. *)
Class Float (float : Type) : Type := {
  float_zero : float;                    (* 0.0 *)
  float_max : float → float → float      (* max(a, b) *)
}.

Section Shader.

Context {float : Type} `{!Float float}.

(** What a name of the shader's global scope stands for. *)
Inductive gval : Type :=
| GUvec (v : list Z)          (* a uniform uvecN *)
| GIvec (v : list Z)          (* a constant ivecN *)
| GFloat (f : float)
| GBuffer (data : Z → float). (* a storage buffer, by index *)

Abbreviation globals := (gmap string gval).

(** The host binds the input buffers to [variableNames] and one value to
    each name that [uniforms] declares, in order. *)
Definition hostGlobals (p : MaxPoolProgram)
    (inputs : list (Z → float)) (uniformValues : list (list Z)) : globals :=
  list_to_map (zip (variableNames p) (GBuffer <$> inputs)) ∪
  list_to_map (zip (snd <$> Declarations.parse (uniforms p)) (GUvec <$> uniformValues)).

(** The three global declarations at the head of the template. *)
Definition shaderGlobals (uc : UserCode) (host : globals) : globals :=
  <["initializationValue" := GFloat float_zero]>
    (<["pads" := GIvec [(uc_pads uc).1; (uc_pads uc).2]]>
      (<["strides" := GIvec [(uc_strides uc).1; (uc_strides uc).2]]> host)).

Definition global_ivec2 (g : globals) (name : string) : option (Z * Z) :=
  match g !! name with
  | Some (GIvec [a; b]) => Some (a, b)
  | _ => None
  end.

Definition global_float (g : globals) (name : string) : option float :=
  match g !! name with
  | Some (GFloat f) => Some f
  | _ => None
  end.

Definition global_buffer (g : globals) (name : string) : option (Z → float) :=
  match g !! name with
  | Some (GBuffer data) => Some data
  | _ => None
  end.

(** [float getValue(int batch, int xR, int xC, int d)] *)
Definition getValue (uc : UserCode) (g : globals) (batch xR xC d : Z) : option float :=
  if decide (xC < 0 ∨ xC >= uc_inWidth uc) then
    global_float g "initializationValue"
  else
    x ← global_buffer g "x";
    xShape ← ivec4 (uc_xShape uc);
    Some (x (getFlatIndex [batch; xR; xC; d] xShape)).

(** The body of the outer window loop of [main], for any loop-carried
    state: [cell xR xC] is the body of the inner loop. *)
Definition windowRow {A : Type} (uc : UserCode) (fuel : nat)
    (xRCorner xCCorner : Z) (cell : Z → Z → A → option A) (wR : Z) (acc : A)
    : option A :=
  let xR := int32 (xRCorner + wR) in
  if decide (xR < 0 ∨ xR >= uc_inHeight uc) then
    Some acc                                         (* continue; *)
  else
    forLoop fuel (uc_effectiveFilterWidth uc) (uc_dilationWidth uc) (λ wC acc,
      let xC := int32 (xCCorner + int32 (wC * uc_dilationWidth uc)) in
      cell xR xC acc) 0 acc.

(** The two nested window loops. *)
Definition windowLoop {A : Type} (uc : UserCode) (fuel : nat)
    (xRCorner xCCorner : Z) (cell : Z → Z → A → option A) (init : A) : option A :=
  forLoop fuel (uc_effectiveFilterHeight uc) (uc_dilationHeight uc)
    (windowRow uc fuel xRCorner xCCorner cell) 0 init.

(** [void main()]: the write the invocation [gid] makes. *)
Definition main (uc : UserCode) (g : globals) (gid : uvec3) (fuel : nat)
    : option (Z * float) :=
  coords ← callCoords (uc_getOutputCoords uc) gid;
  guard (length coords = 4%nat);;
  batch ← coords !! 0%nat;
  d ← coords !! 3%nat;
  shape ← mapM id (uc_outputShape uc) ≫= ivec4;
  let index := uint32 (getFlatIndex coords shape) in
  strides ← global_ivec2 g "strides";
  pads ← global_ivec2 g "pads";
  y ← coords !! 1%nat;
  z ← coords !! 2%nat;
  let xRCorner := int32 (int32 (y * strides.1) - pads.1) in
  let xCCorner := int32 (int32 (z * strides.2) - pads.2) in
  minMaxValue ← windowLoop uc fuel xRCorner xCCorner (λ xR xC minMaxValue,
    value ← getValue uc g batch xR xC d;
    Some (float_max value minMaxValue)) float_zero;
  Some (setOutput index minMaxValue).

(** The input cells [main] reads, in order: the window loops with the
    cell's coordinates as the state. *)
Definition visitedCells (uc : UserCode) (fuel : nat) (xRCorner xCCorner : Z)
    : option (list (Z * Z)) :=
  windowLoop uc fuel xRCorner xCCorner (λ xR xC cells, Some (cells ++ [(xR, xC)])) [].

(** One invocation of a built program. *)
Definition invoke (p : MaxPoolProgram) (inputs : list (Z → float))
    (uniformValues : list (list Z)) (gid : uvec3) (fuel : nat) : option (Z * float) :=
  main (userCode p) (shaderGlobals (userCode p) (hostGlobals p inputs uniformValues)) gid fuel.

End Shader.

(** ** The dispatch grid *)

(** Modelled from the spec: the execution runtime (not under src/) runs "one
    invocation per output element, grouped into workgroups sized by
    [tileSize]": [dispatch[i]] workgroups of [tileSize[i]] invocations along
    axis [i], so the component [i] of [gl_GlobalInvocationID] ranges over
    [0 .. dispatch[i] * tileSize[i] - 1]. *)
Definition globalInvocationIDs (p : MaxPoolProgram) : option (list uvec3) :=
  let '(d0, d1, d2) := dispatch p in
  nx ← d0; ny ← d1; nz ← d2;
  tx ← program_tileSize p !! 0%nat;
  ty ← program_tileSize p !! 1%nat;
  tz ← program_tileSize p !! 2%nat;
  Some (x ← seqZ 0 (nx * tx); y ← seqZ 0 (ny * ty); z ← seqZ 0 (nz * tz);
        [ {| gx := x; gy := y; gz := z |} ]).

(** The writes of a whole dispatch, one per invocation. *)
Definition execute {float : Type} `{!Float float} (p : MaxPoolProgram)
    (inputs : list (Z → float)) (uniformValues : list (list Z)) (fuel : nat)
    : option (list (Z * float)) :=
  gids ← globalInvocationIDs p;
  mapM (λ gid, invoke p inputs uniformValues gid fuel) gids.

(** IEEE binary64 as an instance: [max(a, b)] is [b] if [a < b], else [a]. *)
#[export] Instance prim_float : Float PrimFloat.float := {|
  float_zero := 0%float;
  float_max := λ a b, if PrimFloat.ltb a b then b else a
|}.

(** ** Reference notions the statements use *)

(** A fold whose step may be stuck. *)
Fixpoint foldM {A B : Type} (f : B → A → option A) (acc : A) (l : list B) : option A :=
  match l with
  | [] => Some acc
  | x :: l => acc' ← f x acc; foldM f acc' l
  end.

(** The values a loop variable takes in
    [for (int i = 0; i < bound; i += step)]: the multiples of [step] below
    [bound], [(bound + step - 1) / step] of them. *)
Definition iterations (bound step : Z) : Z := (bound + step - 1) / step.

Definition loopIndices (bound step : Z) : list Z :=
  (λ k, k * step) <$> seqZ 0 (iterations bound step).

(** The cells of the input the window loops reach from a corner, in order:
    rows outside the input are left out; columns are not. *)
Definition windowCells (uc : UserCode) (xRCorner xCCorner : Z) : list (Z * Z) :=
  wR ← loopIndices (uc_effectiveFilterHeight uc) (uc_dilationHeight uc);
  let xR := int32 (xRCorner + wR) in
  if decide (xR < 0 ∨ xR >= uc_inHeight uc) then []
  else
    (λ wC, (xR, int32 (xCCorner + int32 (wC * uc_dilationWidth uc))))
      <$> loopIndices (uc_effectiveFilterWidth uc) (uc_dilationWidth uc).

(** The loops stop, and their counters do not wrap around. *)
Definition loop_ok (bound step : Z) (fuel : nat) : Prop :=
  0 < step ∧ bound + step <= 2 ^ 31 ∧ (length (loopIndices bound step) < fuel)%nat.

(** What a cell of the window contributes: the padding value for a column
    outside the input, the input element otherwise. *)
Definition paddedRead {float : Type} `{!Float float} (x : Z → float)
    (xShape : list Z) (inWidth batch d : Z) (rc : Z * Z) : float :=
  if decide (rc.2 < 0 ∨ rc.2 >= inWidth) then float_zero
  else x (getFlatIndex [batch; rc.1; rc.2; d] xShape).

(** The maximum over a list of cells, from 0.0. *)
Definition pooled {float : Type} `{!Float float} (x : Z → float)
    (xShape : list Z) (inWidth batch d : Z) (cells : list (Z * Z)) : float :=
  foldl (λ m rc, float_max (paddedRead x xShape inWidth batch d rc) m) float_zero cells.

(** The product of a list of integers. *)
Definition product (zs : list Z) : Z := foldr Z.mul 1 zs.

(** [c] is the ceiling of [a / b]. *)
Definition is_ceil (a b c : Z) : Prop := b * (c - 1) < a <= b * c.

(** The digits of [f] in the mixed radix of [strides], the last stride, 1,
    implicit: quotient by each stride in turn, the last remainder as it is. *)
Fixpoint digits (f : Z) (strides : list Z) : list Z :=
  match strides with
  | [] => [f]
  | s :: strides => f / s :: digits (f - f / s * s) strides
  end.

(** The row-major strides of a shape of integers, the last one implicit. *)
Fixpoint rowMajorStrides (sizes : list Z) : list Z :=
  match sizes with
  | [] => []
  | _ :: rest =>
      match rest with
      | [] => []
      | _ :: _ => product rest :: rowMajorStrides rest
      end
  end.

(** The loop over the strides, by recursion on them. *)
Fixpoint gatherLoop (idx : string) (arr : list nat) (strides : list number) : list stmt :=
  match arr, strides with
  | a :: arr', s :: strides' =>
      SDecl (d_ (Some a)) (EDiv (EVar idx) (ELit s)) ::
      match strides' with
      | [] => SDecl (d_ (arr' !! 0%nat))
                    (ESub (EVar idx) (EMul (EVar (d_ (Some a))) (ELit s)))
      | _ :: _ => SSubAssign idx (EMul (EVar (d_ (Some a))) (ELit s))
      end :: gatherLoop idx arr' strides'
  | _, _ => []
  end.

(** A concrete helper for closed examples: every rank is an [ivec4]. *)
Definition always_ivec4 : nat → result string := λ _, Ok "ivec4".

(** The scenario of the specification: a 4x4 input pooled 2x2 with stride 2. *)
Definition scenario : Conv2DInfo := {|
  strideHeight := 2; strideWidth := 2;
  dilationHeight := 1; dilationWidth := 1;
  padInfo := {| top := 0; left := 0 |};
  effectiveFilterHeight := 2; effectiveFilterWidth := 2;
  inHeight := 4; inWidth := 4;
  inShape := [1; 4; 4; 1];
  outShape := [1; 2; 2; 1]
|}.

(** The same with an input shape of rank 3, and with an output shape of
    rank 3. *)
Definition scenario_inShape_rank3 : Conv2DInfo := {|
  strideHeight := 2; strideWidth := 2;
  dilationHeight := 1; dilationWidth := 1;
  padInfo := {| top := 0; left := 0 |};
  effectiveFilterHeight := 2; effectiveFilterWidth := 2;
  inHeight := 4; inWidth := 4;
  inShape := [1; 4; 4];
  outShape := [1; 2; 2; 1]
|}.

Definition scenario_outShape_rank3 : Conv2DInfo := {|
  strideHeight := 2; strideWidth := 2;
  dilationHeight := 1; dilationWidth := 1;
  padInfo := {| top := 0; left := 0 |};
  effectiveFilterHeight := 2; effectiveFilterWidth := 2;
  inHeight := 4; inWidth := 4;
  inShape := [1; 4; 4; 1];
  outShape := [1; 2; 2]
|}.

(** Its input, row-major, and the values the host binds to the uniforms
    [inpShape], [outShape], [pad] and [stride]. *)
Definition scenario_input : Z → PrimFloat.float := λ i,
  default 0%float
    ([1; 2; 3; 4; 5; 6; 7; 8; 9; 10; 11; 12; 13; 14; 15; 16]%float !! Z.to_nat i).

Definition scenario_uniforms : list (list Z) := [[1; 4; 4; 1]; [1; 2; 2; 1]; [0; 0]; [2; 2]].

(** The scenario with three rows of padding above: the windows of the first
    output row lie above the input. *)
Definition scenario_above : Conv2DInfo := {|
  strideHeight := 2; strideWidth := 2;
  dilationHeight := 1; dilationWidth := 1;
  padInfo := {| top := 3; left := 0 |};
  effectiveFilterHeight := 2; effectiveFilterWidth := 2;
  inHeight := 4; inWidth := 4;
  inShape := [1; 4; 4; 1];
  outShape := [1; 2; 2; 1]
|}.

(** The scenario with one row and one column of padding. *)
Definition scenario_padded : Conv2DInfo := {|
  strideHeight := 2; strideWidth := 2;
  dilationHeight := 1; dilationWidth := 1;
  padInfo := {| top := 1; left := 1 |};
  effectiveFilterHeight := 2; effectiveFilterWidth := 2;
  inHeight := 4; inWidth := 4;
  inShape := [1; 4; 4; 1];
  outShape := [1; 2; 2; 1]
|}.

(** What the constructor returns for [scenario] and for [scenario_above],
    which differ in the padding only. *)
Definition scenario_program_padded (padTop : Z) : MaxPoolProgram := {|
  outputShape := [1; 2; 2; 1];
  userCode := {|
    uc_strides := (2, 2);
    uc_pads := (padTop, 0);
    uc_inWidth := 4;
    uc_xShape := [1; 4; 4; 1];
    uc_getOutputCoords := {|
      cf_dtype := "ivec4";
      cf_body := [
        SDecl "d1" (EInvocation (Some X));
        SDecl "d2" (EInvocation (Some Y));
        SDecl "index2" (EInvocation (Some Z_));
        SDecl "d0" (EDiv (EVar "index2") (ELit (Some 1)));
        SDecl "d3" (ESub (EVar "index2") (EMul (EVar "d0") (ELit (Some 1))))
      ];
      cf_dimensions := ["d0"; "d1"; "d2"; "d3"]
    |};
    uc_outputShape := [Some 1; Some 2; Some 2; Some 1];
    uc_effectiveFilterHeight := 2;
    uc_dilationHeight := 1;
    uc_inHeight := 4;
    uc_effectiveFilterWidth := 2;
    uc_dilationWidth := 1
  |};
  dispatch := (Some 1, Some 1, Some 1);
  variableNames := ["x"];
  uniforms := "uvec4 inpShape, outShape; uvec2 pad, stride;";
  program_tileSize := [2; 2; 1]
|}.

Definition scenario_program : MaxPoolProgram := scenario_program_padded 0.
Definition scenario_above_program : MaxPoolProgram := scenario_program_padded 3.

(** Two batches and three channels: the group [[batch, channel]] has six
    flat indices. *)
Definition batched : Conv2DInfo := {|
  strideHeight := 2; strideWidth := 2;
  dilationHeight := 1; dilationWidth := 1;
  padInfo := {| top := 0; left := 0 |};
  effectiveFilterHeight := 2; effectiveFilterWidth := 2;
  inHeight := 4; inWidth := 4;
  inShape := [2; 4; 4; 3];
  outShape := [2; 2; 2; 3]
|}.

(** One row of five, pooled by a filter of two columns with dilation 2
    (an effective width of 3), stride 1, no padding: three outputs. *)
Definition dilated : Conv2DInfo := {|
  strideHeight := 1; strideWidth := 1;
  dilationHeight := 1; dilationWidth := 2;
  padInfo := {| top := 0; left := 0 |};
  effectiveFilterHeight := 1; effectiveFilterWidth := 3;
  inHeight := 1; inWidth := 5;
  inShape := [1; 1; 5; 1];
  outShape := [1; 1; 3; 1]
|}.

Definition dilated_input : Z → PrimFloat.float := λ i,
  default 0%float ([1; 9; 7; 3; 5]%float !! Z.to_nat i).

Definition dilated_uniforms : list (list Z) := [[1; 1; 5; 1]; [1; 1; 3; 1]; [0; 0]; [1; 1]].

(** A 3x3 input pooled by a 1x1 filter with stride 1: a 3x3 output, odd in
    both tiled dimensions. *)
Definition odd_output : Conv2DInfo := {|
  strideHeight := 1; strideWidth := 1;
  dilationHeight := 1; dilationWidth := 1;
  padInfo := {| top := 0; left := 0 |};
  effectiveFilterHeight := 1; effectiveFilterWidth := 1;
  inHeight := 3; inWidth := 3;
  inShape := [1; 3; 3; 1];
  outShape := [1; 3; 3; 1]
|}.

Definition odd_uniforms : list (list Z) := [[1; 3; 3; 1]; [1; 3; 3; 1]; [0; 0]; [1; 1]].

(** The scenario with a row dilation of 0. *)
Definition stalled : Conv2DInfo := {|
  strideHeight := 2; strideWidth := 2;
  dilationHeight := 0; dilationWidth := 1;
  padInfo := {| top := 0; left := 0 |};
  effectiveFilterHeight := 2; effectiveFilterWidth := 2;
  inHeight := 4; inWidth := 4;
  inShape := [1; 4; 4; 1];
  outShape := [1; 2; 2; 1]
|}.

(** An input with no element above 0.0. *)
Definition negative_input : Z → PrimFloat.float := λ i,
  if Z.even i then (-1)%float else (-2)%float.

(** An input that is [scenario_input] within the sixteen elements of the
    input only. *)
Definition scenario_input_beyond : Z → PrimFloat.float := λ i,
  if decide (0 <= i < 16) then scenario_input i else 99%float.

(** An input that is [scenario_input] on the bottom-right 2x2 block only. *)
Definition scenario_input_elsewhere : Z → PrimFloat.float := λ i,
  if decide (i ∈ [10; 11; 14; 15]) then scenario_input i else 0%float.

(** The scenario with no channel. *)
Definition empty_output : Conv2DInfo := {|
  strideHeight := 2; strideWidth := 2;
  dilationHeight := 1; dilationWidth := 1;
  padInfo := {| top := 0; left := 0 |};
  effectiveFilterHeight := 2; effectiveFilterWidth := 2;
  inHeight := 4; inWidth := 4;
  inShape := [1; 4; 4; 0];
  outShape := [1; 2; 2; 0]
|}.

(** * Properties *)

(** [loop_ok] at concrete bounds, by computation. *)
Ltac loop_ok_by_computation :=
  split; [|split]; [reflexivity | vm_compute; discriminate | vm_compute; lia].


(** ** [arrayProduct] and the dispatch size *)

Lemma foldl_mul_Some (a : Z) (zs : list Z) :
  foldl mul (Some a) (Some <$> zs) = Some (a * product zs).
Proof.
  revert a. induction zs as [|z zs IH]; intros a; simpl.
  - f_equal. lia.
  - rewrite IH. f_equal. unfold product. simpl. lia.
Qed.

Lemma arrayProduct_nil : arrayProduct [] = Throw "Cannot find product of empty array.".
Proof. reflexivity. Qed.

Lemma arrayProduct_numbers (z : Z) (zs : list Z) :
  arrayProduct (Some <$> z :: zs) = Ok (Some (product (z :: zs))).
Proof.
  unfold arrayProduct. simpl length. rewrite decide_False by lia.
  rewrite foldl_mul_Some. do 2 f_equal. lia.
Qed.

Lemma arrayProduct_nonempty (arr : list number) :
  arr ≠ [] → arrayProduct arr = Ok (foldl mul (Some 1) arr).
Proof.
  intros Hne. unfold arrayProduct. rewrite decide_False; [done|].
  destruct arr; [done|]. simpl. lia.
Qed.

Lemma groupShape_length (outputShape : list Z) (arr : list nat) :
  length (groupShape outputShape arr) = length arr.
Proof. unfold groupShape. apply length_fmap. Qed.

(** No group of the fixed arrangement is empty. *)
Lemma dispatchArrangement_nonempty (outputShape : list Z) (i : nat) :
  (i < 3)%nat → groupShape outputShape (dispatchArrangement !!! i) ≠ [].
Proof.
  intros Hi. destruct i as [|[|[|i]]]; [done..|lia].
Qed.

(** The dispatch computation never throws. *)
Lemma computeDispatch_total (outputShape : list Z) :
  ∃ d, computeDispatch outputShape = Ok d.
Proof.
  unfold computeDispatch, dispatchAxis.
  rewrite !arrayProduct_nonempty by (by apply dispatchArrangement_nonempty; lia).
  simpl. eauto.
Qed.

Lemma Qceiling_is_ceil (a : Z) (b : positive) :
  is_ceil a (Z.pos b) (Qceiling (inject_Z a / inject_Z (Z.pos b))).
Proof.
  pose proof (Qle_ceiling (inject_Z a / inject_Z (Z.pos b))) as Hle.
  pose proof (Qceiling_lt (inject_Z a / inject_Z (Z.pos b))) as Hlt.
  generalize dependent (Qceiling (inject_Z a / inject_Z (Z.pos b))).
  intros c Hle Hlt.
  assert (Hq : (inject_Z a / inject_Z (Z.pos b) == a # b)%Q)
    by (symmetry; apply Qmake_Qdiv).
  setoid_rewrite Hq in Hle. setoid_rewrite Hq in Hlt.
  unfold Qle, Qlt in *. simpl in *.
  unfold is_ceil. lia.
Qed.

Lemma is_ceil_unique (a b c c' : Z) : is_ceil a b c → is_ceil a b c' → c = c'.
Proof. unfold is_ceil. nia. Qed.

Lemma computeDispatch_rank4 (B H W C : Z) :
  computeDispatch [B; H; W; C] =
    Ok (Some (Qceiling (inject_Z H / inject_Z 2)),
        Some (Qceiling (inject_Z W / inject_Z 2)),
        Some (Qceiling (inject_Z (B * C) / inject_Z 1))).
Proof.
  cbv -[Z.mul Qceiling Qdiv inject_Z].
  by rewrite !Z.mul_1_l.
Qed.

(** ** The constructor *)

(** What a successful construction leaves in the instance. *)
Lemma MaxPoolProgram_new_fields gct (ci : Conv2DInfo) (p : MaxPoolProgram) :
  MaxPoolProgram_new gct ci = Ok p →
  computeDispatch (outShape ci) = Ok (dispatch p) ∧
  generateGetOutputCoords gct (outShape ci) (outShape ci)
    = Ok (uc_getOutputCoords (userCode p)) ∧
  outputShape p = outShape ci ∧
  variableNames p = ["x"] ∧
  uniforms p = "uvec4 inpShape, outShape; uvec2 pad, stride;" ∧
  program_tileSize p = [2; 2; 1] ∧
  uc_strides (userCode p) = (strideHeight ci, strideWidth ci) ∧
  uc_pads (userCode p) = (top (padInfo ci), left (padInfo ci)) ∧
  uc_inWidth (userCode p) = inWidth ci ∧
  uc_inHeight (userCode p) = inHeight ci ∧
  uc_xShape (userCode p) = inShape ci ∧
  uc_outputShape (userCode p) = (λ i, outShape ci !! i) <$> [0; 1; 2; 3]%nat ∧
  uc_effectiveFilterHeight (userCode p) = effectiveFilterHeight ci ∧
  uc_effectiveFilterWidth (userCode p) = effectiveFilterWidth ci ∧
  uc_dilationHeight (userCode p) = dilationHeight ci ∧
  uc_dilationWidth (userCode p) = dilationWidth ci.
Proof.
  unfold MaxPoolProgram_new. intros Hnew.
  destruct (computeDispatch (outShape ci)) as [d|msg]; [|done].
  destruct (generateGetOutputCoords gct (outShape ci) (outShape ci)) as [f|msg]; [|done].
  simpl in Hnew. injection Hnew as <-. simpl. done.
Qed.

(** The constructor fails exactly when the type-name helper does. *)
Lemma MaxPoolProgram_new_total gct (ci : Conv2DInfo) :
  match gct (length (outShape ci)) with
  | Ok _ => ∃ p, MaxPoolProgram_new gct ci = Ok p
  | Throw msg => MaxPoolProgram_new gct ci = Throw msg
  end.
Proof.
  unfold MaxPoolProgram_new.
  destruct (computeDispatch_total (outShape ci)) as [d ->].
  unfold generateGetOutputCoords.
  destruct (gct (length (outShape ci))) as [dtype|msg]; simpl; eauto.
Qed.




(** C7, as stated, fails: the constructor checks no rank.  With an input
    shape of rank 3, or an output shape of rank 3, it returns an instance. *)
Lemma rank_is_not_validated :
  (length (inShape scenario_inShape_rank3) = 3%nat ∧
   ∃ p, MaxPoolProgram_new always_ivec4 scenario_inShape_rank3 = Ok p) ∧
  (length (outShape scenario_outShape_rank3) = 3%nat ∧
   ∃ p, MaxPoolProgram_new always_ivec4 scenario_outShape_rank3 = Ok p).
Proof.
  split; (split; [reflexivity|]); eexists; vm_compute; reflexivity.
Qed.

(** C7, amended.  The constructor validates no rank: for a geometry whose
    shapes have any lengths, it returns an instance as soon as the type-name
    helper [getCoordsDataType] returns a name for the output rank; the
    instance carries both shapes unchanged.  Its only other source of failure,
    [arrayProduct] on an empty group, cannot occur with the fixed grouping. *)
Theorem construction_ignores_rank gct (ci : Conv2DInfo) (dtype : string) :
  gct (length (outShape ci)) = Ok dtype →
  ∃ p, MaxPoolProgram_new gct ci = Ok p ∧
       outputShape p = outShape ci ∧
       uc_xShape (userCode p) = inShape ci ∧
       cf_dtype (uc_getOutputCoords (userCode p)) = dtype.
Proof.
  intros Hgct. pose proof (MaxPoolProgram_new_total gct ci) as Htot.
  rewrite Hgct in Htot. destruct Htot as [p Hp]. exists p.
  destruct (MaxPoolProgram_new_fields _ _ _ Hp)
    as (_ & Hf & Hout & _ & _ & _ & _ & _ & _ & _ & Hx & _).
  split_and!; [done..|].
  unfold generateGetOutputCoords in Hf. rewrite Hgct in Hf.
  simpl in Hf. injection Hf as <-. done.
Qed.

Lemma construction_ignores_rank_witness :
  ∃ p, MaxPoolProgram_new always_ivec4 scenario_inShape_rank3 = Ok p ∧
       outputShape p = [1; 2; 2; 1] ∧
       uc_xShape (userCode p) = [1; 4; 4] ∧
       cf_dtype (uc_getOutputCoords (userCode p)) = "ivec4".
Proof.
  apply (construction_ignores_rank always_ivec4 scenario_inShape_rank3 "ivec4").
  reflexivity.
Defined.

(** C9. Every instance the constructor returns has [variableNames = ["x"]],
    [tileSize = [2, 2, 1]], the fixed uniform declaration
    [uvec4 inpShape, outShape; uvec2 pad, stride;] -- two [uvec4] shapes and
    the two [uvec2] vectors [pad] and [stride] -- and the caller's output
    shape as [outputShape]. *)
Theorem program_metadata gct (ci : Conv2DInfo) (p : MaxPoolProgram) :
  MaxPoolProgram_new gct ci = Ok p →
  variableNames p = ["x"] ∧
  program_tileSize p = [2; 2; 1] ∧
  uniforms p = "uvec4 inpShape, outShape; uvec2 pad, stride;" ∧
  Declarations.parse (uniforms p) =
    [("uvec4", "inpShape"); ("uvec4", "outShape");
     ("uvec2", "pad"); ("uvec2", "stride")] ∧
  outputShape p = outShape ci.
Proof.
  intros Hnew.
  destruct (MaxPoolProgram_new_fields _ _ _ Hnew) as (_ & _ & Ho & Hv & Hu & Ht & _).
  rewrite Hu. split_and!; done.
Qed.

Lemma program_metadata_witness :
  variableNames scenario_program = ["x"] ∧
  program_tileSize scenario_program = [2; 2; 1] ∧
  uniforms scenario_program = "uvec4 inpShape, outShape; uvec2 pad, stride;" ∧
  Declarations.parse (uniforms scenario_program) =
    [("uvec4", "inpShape"); ("uvec4", "outShape");
     ("uvec2", "pad"); ("uvec2", "stride")] ∧
  outputShape scenario_program = [1; 2; 2; 1].
Proof.
  apply (program_metadata always_ivec4 scenario scenario_program).
  vm_compute; reflexivity.
Defined.

(** ** The emitted [getOutputCoords] *)

(** The code emitted for an output shape of rank 4: the single-dimension
    groups [[1]] and [[2]] read their component; the group [[0, 3]] divides
    by its one stride, the size of dimension 3, and takes the remainder. *)
Lemma generateGetOutputCoords_rank4 gct (B H W C : Z) (dtype : string) :
  gct 4%nat = Ok dtype →
  generateGetOutputCoords gct [B; H; W; C] [B; H; W; C] = Ok {|
    cf_dtype := dtype;
    cf_body := [
      SDecl "d1" (EInvocation (Some X));
      SDecl "d2" (EInvocation (Some Y));
      SDecl "index2" (EInvocation (Some Z_));
      SDecl "d0" (EDiv (EVar "index2") (ELit (Some C)));
      SDecl "d3" (ESub (EVar "index2") (EMul (EVar "d0") (ELit (Some C))))
    ];
    cf_dimensions := ["d0"; "d1"; "d2"; "d3"]
  |}.
Proof.
  intros Hgct. unfold generateGetOutputCoords. simpl length. rewrite Hgct.
  cbv -[Z.mul]. by rewrite Z.mul_1_r.
Qed.

(** The function emitted into a program built for a rank-4 output shape. *)
Lemma built_getOutputCoords gct (ci : Conv2DInfo) (p : MaxPoolProgram) (B H W C : Z) :
  MaxPoolProgram_new gct ci = Ok p →
  outShape ci = [B; H; W; C] →
  cf_body (uc_getOutputCoords (userCode p)) = [
    SDecl "d1" (EInvocation (Some X));
    SDecl "d2" (EInvocation (Some Y));
    SDecl "index2" (EInvocation (Some Z_));
    SDecl "d0" (EDiv (EVar "index2") (ELit (Some C)));
    SDecl "d3" (ESub (EVar "index2") (EMul (EVar "d0") (ELit (Some C))))
  ] ∧
  cf_dimensions (uc_getOutputCoords (userCode p)) = ["d0"; "d1"; "d2"; "d3"].
Proof.
  intros Hnew Hshape.
  destruct (MaxPoolProgram_new_fields _ _ _ Hnew) as (_ & Hf & _).
  rewrite Hshape in Hf.
  destruct (gct 4%nat) as [dtype|msg] eqn:Hgct.
  - rewrite (generateGetOutputCoords_rank4 _ _ _ _ _ _ Hgct) in Hf.
    injection Hf as <-. done.
  - unfold generateGetOutputCoords in Hf. simpl length in Hf.
    by rewrite Hgct in Hf.
Qed.

(** Running the emitted statements. *)
Lemma execs_rank4 (gid : uvec3) (C : Z) :
  C ≠ 0 →
  let d0 := uint32 (gz gid / C) in
  let d3 := uint32 (gz gid - uint32 (d0 * C)) in
  ∃ σ, execs gid ∅ [
      SDecl "d1" (EInvocation (Some X));
      SDecl "d2" (EInvocation (Some Y));
      SDecl "index2" (EInvocation (Some Z_));
      SDecl "d0" (EDiv (EVar "index2") (ELit (Some C)));
      SDecl "d3" (ESub (EVar "index2") (EMul (EVar "d0") (ELit (Some C))))
    ] = Some σ ∧
    σ !! "d0" = Some d0 ∧ σ !! "d1" = Some (gx gid) ∧
    σ !! "d2" = Some (gy gid) ∧ σ !! "d3" = Some d3 ∧
    mapM (λ v, σ !! v) ["d0"; "d1"; "d2"; "d3"] = Some [d0; gx gid; gy gid; d3].
Proof.
  intros HC d0 d3. eexists. split.
  - cbn [execs exec eval select]. simplify_map_eq. simpl. reflexivity.
  - by simplify_map_eq.
Qed.

Lemma uint32_small (z : Z) : 0 <= z < 2 ^ 32 → uint32 z = z.
Proof. intros Hz. unfold uint32. by apply Z.mod_small. Qed.

Lemma int32_small (z : Z) : - 2 ^ 31 <= z < 2 ^ 31 → int32 z = z.
Proof. intros Hz. unfold int32. rewrite Z.mod_small; lia. Qed.

Lemma int32_range (z : Z) : - 2 ^ 31 <= int32 z < 2 ^ 31.
Proof.
  unfold int32. pose proof (Z.mod_pos_bound (z + 2 ^ 31) (2 ^ 32)). lia.
Qed.

(** Quotient and remainder of a [uint] by a positive stride, without
    wrap-around. *)
Lemma uint32_divmod (f C : Z) :
  0 <= f < 2 ^ 32 → 0 < C →
  uint32 (f / C) = f / C ∧
  uint32 (f - uint32 (uint32 (f / C) * C)) = f mod C.
Proof.
  intros Hf HC.
  assert (Hq : 0 <= f / C <= f).
  { split; [apply Z.div_pos; lia|]. apply Z.div_le_upper_bound; nia. }
  assert (Hm : 0 <= f mod C < C) by (apply Z.mod_pos_bound; lia).
  pose proof (Z.div_mod f C ltac:(lia)) as Hdm.
  rewrite (uint32_small (f / C)) by lia.
  rewrite (uint32_small (f / C * C)) by nia.
  split; [done|]. rewrite uint32_small; nia.
Qed.



(** ** Any grouping *)

Lemma foldr_mul_Some (zs : list Z) : foldr mul (Some 1) (Some <$> zs) = Some (product zs).
Proof. induction zs as [|z zs IH]; csimpl; [done|]. by rewrite IH. Qed.

Lemma computeStrides_numbers (sizes : list Z) :
  computeStrides (Some <$> sizes) = Some <$> rowMajorStrides sizes.
Proof.
  induction sizes as [|n rest IH]; [done|].
  destruct rest as [|m rest]; [done|].
  cbn [fmap list_fmap computeStrides rowMajorStrides] in *.
  rewrite IH. f_equal.
  change (Some m :: (Some <$> rest)) with (Some <$> (m :: rest)) at 1.
  apply foldr_mul_Some.
Qed.

Lemma product_pos (zs : list Z) : Forall (λ n, 0 < n) zs → 0 < product zs.
Proof. induction 1; unfold product in *; simpl; [lia|nia]. Qed.

Lemma getFlatIndex_acc (acc : Z) (ds sizes : list Z) :
  length ds = length sizes →
  foldl (λ acc cs, acc * cs.2 + cs.1) acc (zip ds sizes)
    = acc * product sizes + getFlatIndex ds sizes.
Proof.
  unfold getFlatIndex. revert acc sizes.
  induction ds as [|d ds IH]; intros acc [|n sizes] Hlen; try done.
  - unfold product. simpl. lia.
  - simpl in *. rewrite (IH (acc * n + d)), (IH (0 * n + d)) by lia.
    unfold product. simpl. fold (product sizes). lia.
Qed.

Lemma digits_spec (sizes : list Z) (f : Z) :
  sizes ≠ [] →
  Forall (λ n, 0 < n) sizes →
  0 <= f < product sizes →
  let ds := digits f (rowMajorStrides sizes) in
  Forall2 (λ d n, 0 <= d < n) ds sizes ∧ getFlatIndex ds sizes = f.
Proof.
  intros Hne Hpos. revert f.
  induction Hpos as [|n rest Hn Hrest IH]; [done|]. intros f Hf.
  destruct rest as [|m rest].
  - unfold product in Hf. simpl in *. split.
    + constructor; [lia|constructor].
    + unfold getFlatIndex. simpl. lia.
  - change (rowMajorStrides (n :: m :: rest))
      with (product (m :: rest) :: rowMajorStrides (m :: rest)).
    cbn [digits].
    set (s := product (m :: rest)) in *.
    assert (Hs : 0 < s) by (by apply product_pos).
    assert (Hprod : product (n :: m :: rest) = n * s) by done.
    rewrite Hprod in Hf.
    pose proof (Z.div_mod f s ltac:(lia)) as Hdm.
    pose proof (Z.mod_pos_bound f s Hs) as Hm.
    assert (Hq0 : 0 <= f / s) by (apply Z.div_pos; lia).
    assert (Hqn : f / s < n) by (apply Z.div_lt_upper_bound; lia).
    destruct (IH ltac:(done) (f - f / s * s) ltac:(lia)) as [Hds Hflat].
    split.
    + constructor; [lia|done].
    + unfold getFlatIndex. cbn [zip zip_with foldl fst snd].
      rewrite getFlatIndex_acc by (by apply Forall2_length in Hds).
      fold s. rewrite Hflat. lia.
Qed.

(** [d0], [d1], ... differ from each other and from every [index] name. *)
Lemma d_inj (a b : nat) : d_ (Some a) = d_ (Some b) → a = b.
Proof.
  unfold d_, show_nat. intros Heq. injection Heq as Heq.
  by apply (inj pretty).
Qed.

Lemma d_ne_index (n : option nat) (i : nat) : d_ n ≠ index_ i.
Proof. unfold d_, index_. discriminate. Qed.

Lemma gatherLoop_imap (idx : string) (arr0 : list nat) (total : nat) :
  ∀ (strides : list number) (o : nat),
    total = (o + length strides)%nat →
    (o + length strides < length arr0)%nat →
    mjoin (imap (λ j s,
      SDecl (d_ (arr0 !! (o + j)%nat)) (EDiv (EVar idx) (ELit s)) ::
      (if decide (S (o + j) = total) then
         SDecl (d_ (arr0 !! S (o + j)))
               (ESub (EVar idx) (EMul (EVar (d_ (arr0 !! (o + j)%nat))) (ELit s)))
       else
         SSubAssign idx (EMul (EVar (d_ (arr0 !! (o + j)%nat))) (ELit s))) :: []) strides)
    = gatherLoop idx (drop o arr0) strides.
Proof.
  induction strides as [|s strides IH]; intros o Htotal Hlen.
  - simpl. by destruct (drop o arr0).
  - rewrite imap_cons. cbn [mjoin list_join length] in *.
    destruct (lookup_lt_is_Some_2 arr0 o ltac:(lia)) as [a Ha].
    rewrite (drop_S _ _ _ Ha). cbn [gatherLoop].
    rewrite Nat.add_0_r, Ha. cbn [app]. f_equal.
    rewrite <- (IH (S o)) by lia. f_equal.
    + destruct strides as [|s' strides].
      * rewrite decide_True by (simpl in *; lia).
        by rewrite lookup_drop, Nat.add_0_r.
      * rewrite decide_False by (simpl in *; lia). done.
    + f_equal. apply imap_ext. intros j s' _. simpl.
      by replace (o + S j)%nat with (S (o + j)) by lia.
Qed.

Lemma execs_gatherLoop (gid : uvec3) (idx : string) :
  (∀ n, d_ n ≠ idx) →
  ∀ (ss : list Z) (arr : list nat) (cur : Z) (σ : gmap string Z),
    ss ≠ [] →
    length arr = S (length ss) →
    Forall (λ s, 0 < s) ss →
    NoDup arr →
    σ !! idx = Some cur →
    0 <= cur < 2 ^ 32 →
    (∀ a, a ∈ arr → σ !! d_ (Some a) = None) →
    ∃ σ',
      execs gid σ (gatherLoop idx arr (Some <$> ss)) = Some σ' ∧
      Forall2 (λ a d, σ' !! d_ (Some a) = Some d) arr (digits cur ss) ∧
      (∀ v, v ≠ idx → (∀ a, a ∈ arr → v ≠ d_ (Some a)) → σ' !! v = σ !! v).
Proof.
  intros Hidx. induction ss as [|s ss IH]; intros arr cur σ Hne Hlen Hpos Hdup Hcur Hrange Hfresh;
    [done|].
  destruct arr as [|a [|b arr]]; try (simpl in Hlen; lia).
  apply Forall_cons in Hpos as [Hs Hpos].
  apply NoDup_cons in Hdup as [Hab Hdup].
  destruct (uint32_divmod cur s Hrange Hs) as [Hq Hr].
  pose proof (Z.div_mod cur s ltac:(lia)) as Hdm.
  pose proof (Z.mod_pos_bound cur s Hs) as Hm.
  assert (Hq0 : 0 <= cur / s) by (apply Z.div_pos; lia).
  assert (Hmod : cur - cur / s * s = cur mod s) by lia.
  assert (Hda : ∀ a', a' ∈ b :: arr → d_ (Some a') ≠ d_ (Some a)).
  { intros a' Ha' Heq. apply d_inj in Heq. by subst. }
  assert (Hstep : ∀ σ0 rest,
    execs gid σ0 (SDecl (d_ (Some a)) (EDiv (EVar idx) (ELit (Some s))) :: rest)
    = (if decide (σ0 !! d_ (Some a) = None ∧ σ0 !! idx = Some cur)
       then execs gid (<[d_ (Some a) := cur / s]> σ0) rest
       else execs gid σ0 (SDecl (d_ (Some a)) (EDiv (EVar idx) (ELit (Some s))) :: rest))).
  { intros σ0 rest. case_decide as Hσ0; [|done]. destruct Hσ0 as [Hn Hc].
    cbn [execs exec eval]. rewrite Hn, Hc. cbn [mbind option_bind].
    rewrite decide_False by lia. cbn [mbind option_bind]. by rewrite Hq. }
  assert (Hmul : ∀ σ0, σ0 !! d_ (Some a) = Some (cur / s) → σ0 !! idx = Some cur →
    (eval gid σ0 (EMul (EVar (d_ (Some a))) (ELit (Some s))) = Some (cur / s * s)) ∧
    (eval gid σ0 (ESub (EVar idx) (EMul (EVar (d_ (Some a))) (ELit (Some s))))
       = Some (cur - cur / s * s))).
  { intros σ0 Hd Hc. cbn [eval]. rewrite Hd, Hc. cbn [mbind option_bind].
    rewrite (uint32_small (cur / s * s)) by nia.
    by rewrite (uint32_small (cur - cur / s * s)) by lia. }
  set (σ1 := <[d_ (Some a) := cur / s]> σ).
  assert (H1a : σ1 !! d_ (Some a) = Some (cur / s)) by apply lookup_insert_eq.
  assert (H1i : σ1 !! idx = Some cur)
    by (unfold σ1; rewrite lookup_insert_ne by apply Hidx; done).
  destruct (Hmul σ1 H1a H1i) as [Hmul1 Hsub1].
  destruct ss as [|s' ss].
  - destruct arr; [|simpl in Hlen; lia].
    change (gatherLoop idx [a; b] (Some <$> [s])) with
      [SDecl (d_ (Some a)) (EDiv (EVar idx) (ELit (Some s)));
       SDecl (d_ (Some b)) (ESub (EVar idx) (EMul (EVar (d_ (Some a))) (ELit (Some s))))].
    rewrite Hstep, decide_True
      by (split; [apply Hfresh, list_elem_of_here | done]).
    fold σ1. cbn [execs exec]. rewrite Hsub1.
    assert (H1b : σ1 !! d_ (Some b) = None).
    { unfold σ1. rewrite lookup_insert_ne by (apply not_eq_sym, Hda, list_elem_of_here).
      apply Hfresh, list_elem_of_further, list_elem_of_here. }
    rewrite H1b. cbn [mbind option_bind].
    eexists. split; [reflexivity|]. split.
    + cbn [digits]. repeat constructor.
      * rewrite lookup_insert_ne by (apply Hda, list_elem_of_here). done.
      * by rewrite lookup_insert_eq.
    + intros v Hv Hnames. unfold σ1.
      rewrite !lookup_insert_ne; [done| |].
      * apply not_eq_sym, Hnames, list_elem_of_here.
      * apply not_eq_sym, Hnames, list_elem_of_further, list_elem_of_here.
  - change (gatherLoop idx (a :: b :: arr) (Some <$> s :: s' :: ss)) with
      (SDecl (d_ (Some a)) (EDiv (EVar idx) (ELit (Some s))) ::
       SSubAssign idx (EMul (EVar (d_ (Some a))) (ELit (Some s))) ::
       gatherLoop idx (b :: arr) (Some <$> s' :: ss)).
    rewrite Hstep, decide_True
      by (split; [apply Hfresh, list_elem_of_here | done]).
    fold σ1. cbn [execs exec]. rewrite H1i, Hmul1. cbn [mbind option_bind].
    rewrite (uint32_small (cur - cur / s * s)) by lia.
    set (σ2 := <[idx := cur - cur / s * s]> σ1).
    destruct (IH (b :: arr) (cur - cur / s * s) σ2) as (σ' & Hexec & Hdigits & Hframe);
      try done.
    + simpl in *. lia.
    + unfold σ2. by rewrite lookup_insert_eq.
    + lia.
    + intros a' Ha'. unfold σ2, σ1.
      rewrite lookup_insert_ne by (apply not_eq_sym, Hidx).
      rewrite lookup_insert_ne by (apply not_eq_sym, Hda, Ha').
      apply Hfresh. by apply list_elem_of_further.
    + exists σ'. split; [exact Hexec|]. split.
      * cbn [digits]. constructor; [|exact Hdigits].
        rewrite Hframe; [| apply Hidx | intros a' Ha'; apply not_eq_sym, Hda, Ha'].
        unfold σ2. rewrite lookup_insert_ne by (apply not_eq_sym, Hidx). done.
      * intros v Hv Hnames. rewrite Hframe; [|done|].
        -- unfold σ2, σ1. rewrite !lookup_insert_ne; [done| |by apply not_eq_sym].
           apply not_eq_sym, Hnames, list_elem_of_here.
        -- intros a' Ha'. apply Hnames. by apply list_elem_of_further.
Qed.

Lemma rowMajorStrides_length (sizes : list Z) :
  length (rowMajorStrides sizes) = pred (length sizes).
Proof.
  induction sizes as [|n [|m rest] IH]; [done..|].
  change (rowMajorStrides (n :: m :: rest))
    with (product (m :: rest) :: rowMajorStrides (m :: rest)).
  cbn [length] in *. by rewrite IH.
Qed.

Lemma rowMajorStrides_pos (sizes : list Z) :
  Forall (λ n, 0 < n) sizes → Forall (λ s, 0 < s) (rowMajorStrides sizes).
Proof.
  induction 1 as [|n rest Hn Hrest IH]; [constructor|].
  destruct rest as [|m rest]; [constructor|].
  change (rowMajorStrides (n :: m :: rest))
    with (product (m :: rest) :: rowMajorStrides (m :: rest)).
  constructor; [by apply product_pos|done].
Qed.

(** A group of one dimension reads its component of the invocation id. *)
Lemma gather_single (outputShape : list Z) (i : nat) (pos : component) (a : nat)
    (gid : uvec3) (σ : gmap string Z) :
  globalInvocationPositions !! i = Some pos →
  σ !! d_ (Some a) = None →
  execs gid σ (gatherDimensions outputShape i [a])
    = Some (<[d_ (Some a) := select gid pos]> σ).
Proof.
  intros Hpos Hfresh. unfold gatherDimensions.
  rewrite decide_True by done. rewrite Hpos.
  cbn [lookup list_lookup execs exec eval fmap option_fmap option_map].
  by rewrite Hfresh.
Qed.



(** The call of the emitted function, for a program built for a rank-4
    output shape. *)
Lemma callCoords_built gct (ci : Conv2DInfo) (p : MaxPoolProgram) (B H W C : Z)
    (gid : uvec3) :
  MaxPoolProgram_new gct ci = Ok p →
  outShape ci = [B; H; W; C] →
  C ≠ 0 →
  let d0 := uint32 (gz gid / C) in
  let d3 := uint32 (gz gid - uint32 (d0 * C)) in
  callCoords (uc_getOutputCoords (userCode p)) gid
    = Some [int32 d0; int32 (gx gid); int32 (gy gid); int32 d3].
Proof.
  intros Hnew Hshape HC d0 d3. unfold callCoords.
  destruct (built_getOutputCoords _ _ _ _ _ _ _ Hnew Hshape) as [-> ->].
  destruct (execs_rank4 gid C HC) as (σ & -> & _ & _ & _ & _ & Hdims).
  cbn [mbind option_bind]. by rewrite Hdims.
Qed.

(** ** Loops *)

Section Loops.

Context {A : Type}.
Implicit Types (body : Z → A → option A) (acc : A).

Lemma forLoop_ext fuel bound step body body' i acc :
  (∀ j acc, body j acc = body' j acc) →
  forLoop fuel bound step body i acc = forLoop fuel bound step body' i acc.
Proof.
  intros Hext. revert i acc.
  induction fuel as [|fuel IH]; intros i acc; simpl; [done|].
  case_decide; [|done]. rewrite Hext.
  destruct (body' i acc) as [acc'|]; simpl; [apply IH|done].
Qed.

Lemma foldM_app {B : Type} (f : B → A → option A) acc (l1 l2 : list B) :
  foldM f acc (l1 ++ l2) = acc' ← foldM f acc l1; foldM f acc' l2.
Proof.
  revert acc. induction l1 as [|x l1 IH]; intros acc; simpl; [done|].
  destruct (f x acc) as [acc'|]; simpl; [apply IH|done].
Qed.

Lemma foldM_fmap {B C : Type} (f : C → A → option A) (h : B → C) acc (l : list B) :
  foldM f acc (h <$> l) = foldM (λ x, f (h x)) acc l.
Proof.
  revert acc. induction l as [|x l IH]; intros acc; simpl; [done|].
  destruct (f (h x) acc) as [acc'|]; simpl; [apply IH|done].
Qed.

Lemma foldM_id {B : Type} (f : B → A → option A) acc (l : list B) :
  (∀ x, x ∈ l → f x acc = Some acc) → foldM f acc l = Some acc.
Proof.
  induction l as [|x l IH]; intros Hid; simpl; [done|].
  rewrite Hid by apply list_elem_of_here. simpl.
  apply IH. intros y Hy. apply Hid. by apply list_elem_of_further.
Qed.

(** From the [k]-th multiple of [step] on, [n] further passes remain. *)
Lemma forLoop_from bound step body :
  0 < step → bound + step <= 2 ^ 31 →
  ∀ (n : nat) (k : Z) (fuel : nat) acc,
    0 <= k →
    (∀ j, k <= j < k + Z.of_nat n → j * step < bound) →
    bound <= (k + Z.of_nat n) * step →
    (n < fuel)%nat →
    forLoop fuel bound step body (k * step) acc
      = foldM body acc ((λ j, j * step) <$> seqZ k (Z.of_nat n)).
Proof.
  intros Hstep Hbound. induction n as [|n IH]; intros k fuel acc Hk Hin Hout Hfuel.
  - destruct fuel as [|fuel]; [lia|]. simpl.
    rewrite decide_False by lia. done.
  - destruct fuel as [|fuel]; [lia|]. simpl.
    assert (Hlt : k * step < bound) by (apply Hin; lia).
    rewrite decide_True by done.
    rewrite seqZ_cons by lia. simpl.
    destruct (body (k * step) acc) as [acc'|]; simpl; [|done].
    rewrite int32_small by nia.
    replace (k * step + step) with ((k + 1) * step) by lia.
    replace (Z.pred (Z.of_nat (S n))) with (Z.of_nat n) by lia.
    replace (Z.succ k) with (k + 1) by lia.
    apply IH; [lia| |lia|lia].
    intros j Hj. apply Hin. lia.
Qed.

Lemma iterations_spec bound step :
  0 < step → 0 < bound → is_ceil bound step (iterations bound step).
Proof.
  intros Hstep Hbound. unfold is_ceil, iterations.
  pose proof (Z.div_mod (bound + step - 1) step ltac:(lia)) as Hdm.
  pose proof (Z.mod_pos_bound (bound + step - 1) step Hstep) as Hm.
  nia.
Qed.

Lemma iterations_nonpos bound step :
  0 < step → bound <= 0 → iterations bound step <= 0.
Proof.
  intros Hstep Hbound. unfold iterations.
  assert ((bound + step - 1) / step < 1); [|lia].
  apply Z.div_lt_upper_bound; lia.
Qed.

Lemma length_loopIndices bound step :
  length (loopIndices bound step) = Z.to_nat (iterations bound step).
Proof. unfold loopIndices. by rewrite length_fmap, length_seqZ. Qed.

(** A terminating loop is the fold of its body over the values of its
    variable. *)
Lemma forLoop_indices fuel bound step body acc :
  0 < step → bound + step <= 2 ^ 31 →
  (length (loopIndices bound step) < fuel)%nat →
  forLoop fuel bound step body 0 acc = foldM body acc (loopIndices bound step).
Proof.
  intros Hstep Hbound Hfuel. rewrite length_loopIndices in Hfuel.
  unfold loopIndices.
  change 0 with (0 * step) at 1.
  destruct (decide (0 < bound)) as [Hpos|Hneg].
  - pose proof (iterations_spec bound step Hstep Hpos) as Hc. unfold is_ceil in Hc.
    rewrite <- (Z2Nat.id (iterations bound step)) by nia.
    apply forLoop_from; [done | done | lia | intros j Hj; nia | nia | lia].
  - pose proof (iterations_nonpos bound step Hstep ltac:(lia)) as Hc.
    replace (seqZ 0 (iterations bound step)) with (seqZ 0 (Z.of_nat 0)).
    + apply forLoop_from; [done | done | lia | intros j Hj; lia | lia | lia].
    + unfold seqZ. by replace (Z.to_nat (iterations bound step)) with 0%nat by lia.
Qed.

End Loops.

(** ** The window loops *)

Section Window.

Context {A : Type}.
Implicit Types (cell : Z → Z → A → option A) (acc : A).

(** The [continue]: a row outside the input leaves the state as it is,
    and no cell of it is read. *)
Lemma windowRow_skip uc fuel xRCorner xCCorner cell wR acc :
  int32 (xRCorner + wR) < 0 ∨ int32 (xRCorner + wR) >= uc_inHeight uc →
  windowRow uc fuel xRCorner xCCorner cell wR acc = Some acc.
Proof. intros Hout. unfold windowRow. by rewrite decide_True. Qed.

(** A row inside the input folds [cell] over its columns -- all of them,
    inside the input or not. *)
Lemma windowRow_inside uc fuel xRCorner xCCorner cell wR acc :
  loop_ok (uc_effectiveFilterWidth uc) (uc_dilationWidth uc) fuel →
  0 <= int32 (xRCorner + wR) < uc_inHeight uc →
  windowRow uc fuel xRCorner xCCorner cell wR acc =
    foldM (λ wC, cell (int32 (xRCorner + wR))
                      (int32 (xCCorner + int32 (wC * uc_dilationWidth uc))))
          acc (loopIndices (uc_effectiveFilterWidth uc) (uc_dilationWidth uc)).
Proof.
  intros (Hstep & Hbound & Hfuel) Hin. unfold windowRow.
  rewrite decide_False by lia. by apply forLoop_indices.
Qed.

(** The loops fold [cell] over [windowCells]. *)
Lemma windowLoop_cells uc fuel xRCorner xCCorner cell acc :
  loop_ok (uc_effectiveFilterHeight uc) (uc_dilationHeight uc) fuel →
  loop_ok (uc_effectiveFilterWidth uc) (uc_dilationWidth uc) fuel →
  windowLoop uc fuel xRCorner xCCorner cell acc =
    foldM (λ rc, cell rc.1 rc.2) acc (windowCells uc xRCorner xCCorner).
Proof.
  intros (Hstep & Hbound & Hfuel) Hcols. unfold windowLoop, windowCells.
  rewrite forLoop_indices by done.
  generalize (loopIndices (uc_effectiveFilterHeight uc) (uc_dilationHeight uc)).
  intros rows. revert acc.
  induction rows as [|wR rows IH]; intros acc; [done|].
  cbn [foldM mbind list_bind]. rewrite foldM_app.
  case_decide as Hrow.
  - rewrite windowRow_skip by done. simpl. apply IH.
  - rewrite windowRow_inside by (done || lia). rewrite foldM_fmap. simpl.
    destruct (foldM _ acc _) as [acc'|]; simpl; [apply IH|done].
Qed.

(** If every row of the window is outside the input, the loops leave the
    state as it is. *)
Lemma windowLoop_all_skipped uc fuel xRCorner xCCorner cell acc :
  loop_ok (uc_effectiveFilterHeight uc) (uc_dilationHeight uc) fuel →
  (∀ wR, wR ∈ loopIndices (uc_effectiveFilterHeight uc) (uc_dilationHeight uc) →
     int32 (xRCorner + wR) < 0 ∨ int32 (xRCorner + wR) >= uc_inHeight uc) →
  windowLoop uc fuel xRCorner xCCorner cell acc = Some acc.
Proof.
  intros (Hstep & Hbound & Hfuel) Hout. unfold windowLoop.
  rewrite forLoop_indices by done.
  apply foldM_id. intros wR HwR. apply windowRow_skip. by apply Hout.
Qed.

End Window.

Lemma foldM_collect (cells seen : list (Z * Z)) :
  foldM (λ rc seen, Some (seen ++ [(rc.1, rc.2)])) seen cells = Some (seen ++ cells).
Proof.
  revert seen. induction cells as [|[r c] cells IH]; intros seen; simpl.
  - by rewrite app_nil_r.
  - rewrite IH. by rewrite <- app_assoc.
Qed.

(** The cells [main] reads are [windowCells]. *)
Lemma visitedCells_cells uc fuel xRCorner xCCorner :
  loop_ok (uc_effectiveFilterHeight uc) (uc_dilationHeight uc) fuel →
  loop_ok (uc_effectiveFilterWidth uc) (uc_dilationWidth uc) fuel →
  visitedCells uc fuel xRCorner xCCorner = Some (windowCells uc xRCorner xCCorner).
Proof.
  intros Hrows Hcols. unfold visitedCells. rewrite windowLoop_cells by done.
  apply foldM_collect.
Qed.

(** With no row skipped, every row contributes all its columns. *)
Lemma windowCells_length uc xRCorner xCCorner :
  Forall (λ wR, 0 <= int32 (xRCorner + wR) < uc_inHeight uc)
         (loopIndices (uc_effectiveFilterHeight uc) (uc_dilationHeight uc)) →
  length (windowCells uc xRCorner xCCorner) =
    (length (loopIndices (uc_effectiveFilterHeight uc) (uc_dilationHeight uc)) *
     length (loopIndices (uc_effectiveFilterWidth uc) (uc_dilationWidth uc)))%nat.
Proof.
  unfold windowCells.
  generalize (loopIndices (uc_effectiveFilterHeight uc) (uc_dilationHeight uc)).
  intros rows Hin. induction Hin as [|wR rows HwR _ IH]; [done|].
  cbn [mbind list_bind length]. rewrite length_app, decide_False by lia.
  rewrite length_fmap. cbn [mbind] in IH. rewrite IH. lia.
Qed.

(** Every cell read lies in a row of the input. *)
Lemma windowCells_rows uc xRCorner xCCorner (rc : Z * Z) :
  rc ∈ windowCells uc xRCorner xCCorner → 0 <= rc.1 < uc_inHeight uc.
Proof.
  unfold windowCells. intros Hin.
  apply list_elem_of_bind in Hin as (wR & Hrc & _).
  case_decide as Hrow; [by apply elem_of_nil in Hrc|].
  apply list_elem_of_fmap in Hrc as (wC & -> & _). simpl. lia.
Qed.

(** ** The shader's functions *)

Section ShaderProperties.

Context {float : Type} `{!Float float}.
Implicit Types (host : gmap string (@gval float)) (data : Z → float).

Lemma shaderGlobals_strides uc host :
  global_ivec2 (shaderGlobals uc host) "strides"
    = Some ((uc_strides uc).1, (uc_strides uc).2).
Proof.
  unfold global_ivec2, shaderGlobals.
  by rewrite !lookup_insert_ne, lookup_insert_eq by done.
Qed.

Lemma shaderGlobals_pads uc host :
  global_ivec2 (shaderGlobals uc host) "pads" = Some ((uc_pads uc).1, (uc_pads uc).2).
Proof.
  unfold global_ivec2, shaderGlobals.
  by rewrite lookup_insert_ne, lookup_insert_eq by done.
Qed.

Lemma shaderGlobals_initializationValue uc host :
  global_float (shaderGlobals uc host) "initializationValue" = Some float_zero.
Proof. unfold global_float, shaderGlobals. by rewrite lookup_insert_eq. Qed.

Lemma shaderGlobals_x uc host :
  global_buffer (shaderGlobals uc host) "x" = global_buffer host "x".
Proof. unfold global_buffer, shaderGlobals. by rewrite !lookup_insert_ne by done. Qed.

(** A column outside the input reads as the padding value. *)
Lemma getValue_outside uc host batch xR xC d :
  xC < 0 ∨ xC >= uc_inWidth uc →
  getValue uc (shaderGlobals uc host) batch xR xC d = Some float_zero.
Proof.
  intros Hout. unfold getValue. rewrite decide_True by done.
  apply shaderGlobals_initializationValue.
Qed.

(** A column inside reads the buffer, whatever the row is. *)
Lemma getValue_inside uc host data xShape batch xR xC d :
  host !! "x" = Some (GBuffer data) →
  ivec4 (uc_xShape uc) = Some xShape →
  0 <= xC < uc_inWidth uc →
  getValue uc (shaderGlobals uc host) batch xR xC d
    = Some (data (getFlatIndex [batch; xR; xC; d] xShape)).
Proof.
  intros Hx Hshape Hin. unfold getValue. rewrite decide_False by lia.
  rewrite shaderGlobals_x. unfold global_buffer. rewrite Hx. simpl.
  by rewrite Hshape.
Qed.

(** [main] reads four names of the global scope, and no other. *)
Lemma getValue_agree uc (g g' : gmap string (@gval float)) batch xR xC d :
  global_float g "initializationValue" = global_float g' "initializationValue" →
  global_buffer g "x" = global_buffer g' "x" →
  getValue uc g batch xR xC d = getValue uc g' batch xR xC d.
Proof. intros Hi Hx. unfold getValue. by rewrite Hi, Hx. Qed.

Lemma main_agree uc (g g' : gmap string (@gval float)) gid fuel :
  global_ivec2 g "strides" = global_ivec2 g' "strides" →
  global_ivec2 g "pads" = global_ivec2 g' "pads" →
  global_float g "initializationValue" = global_float g' "initializationValue" →
  global_buffer g "x" = global_buffer g' "x" →
  main uc g gid fuel = main uc g' gid fuel.
Proof.
  intros Hs Hp Hi Hx. unfold main. rewrite Hs, Hp.
  do 9 (apply option_bind_ext_fun; intros ?).
  apply option_bind_ext; [done|].
  unfold windowLoop. apply forLoop_ext.
  intros wR acc. unfold windowRow. case_decide; [done|].
  apply forLoop_ext. intros wC acc'.
  by rewrite (getValue_agree uc g g').
Qed.

(** One invocation of a program built for a rank-4 output shape: the
    coordinates, the flat index, the window corner and the fold. *)
Lemma invoke_built gct (ci : Conv2DInfo) (p : MaxPoolProgram) (B H W C : Z)
    inputs uniformValues (gid : uvec3) (fuel : nat) :
  MaxPoolProgram_new gct ci = Ok p →
  outShape ci = [B; H; W; C] →
  C ≠ 0 →
  let d0 := uint32 (gz gid / C) in
  let d3 := uint32 (gz gid - uint32 (d0 * C)) in
  let coords := [int32 d0; int32 (gx gid); int32 (gy gid); int32 d3] in
  let g := shaderGlobals (userCode p) (hostGlobals p inputs uniformValues) in
  let xRCorner := int32 (int32 (int32 (gx gid) * strideHeight ci) - top (padInfo ci)) in
  let xCCorner := int32 (int32 (int32 (gy gid) * strideWidth ci) - left (padInfo ci)) in
  invoke p inputs uniformValues gid fuel =
    minMaxValue ← windowLoop (userCode p) fuel xRCorner xCCorner
      (λ xR xC minMaxValue,
         value ← getValue (userCode p) g (int32 d0) xR xC (int32 d3);
         Some (float_max value minMaxValue)) float_zero;
    Some (uint32 (getFlatIndex coords [B; H; W; C]), minMaxValue).
Proof.
  intros Hnew Hshape HC d0 d3 coords g xRCorner xCCorner.
  unfold invoke, main. fold g.
  rewrite (callCoords_built _ _ _ _ _ _ _ gid Hnew Hshape HC).
  fold d0 d3 coords. cbn [mbind option_bind].
  rewrite option_guard_True by done. cbn [mbind option_bind].
  unfold coords at 1 2. cbn [lookup list_lookup mbind option_bind].
  destruct (MaxPoolProgram_new_fields _ _ _ Hnew)
    as (_ & _ & _ & _ & _ & _ & Hs & Hp & _ & _ & _ & Ho & _).
  rewrite Ho, Hshape. cbn [fmap list_fmap lookup list_lookup mapM id ivec4 mbind option_bind].
  unfold g. rewrite shaderGlobals_strides, shaderGlobals_pads, Hs, Hp.
  cbn [mbind option_bind]. unfold coords at 1 2.
  cbn [lookup list_lookup mbind option_bind fst snd].
  reflexivity.
Qed.

(** The names the uniform block declares do not include [x]. *)
Lemma uniforms_not_x (uniformValues : list (list Z)) :
  (list_to_map (zip ["inpShape"; "outShape"; "pad"; "stride"]
                    (GUvec <$> uniformValues)) : gmap string (@gval float)) !! "x" = None.
Proof.
  apply not_elem_of_list_to_map_1. intros Hin.
  apply list_elem_of_fmap in Hin as ([name v] & Hname & Hin).
  apply elem_of_zip_l in Hin. cbn [fst] in Hname. subst name.
  repeat (apply elem_of_cons in Hin as [Hin|Hin]; [discriminate|]).
  by apply elem_of_nil in Hin.
Qed.

(** No value bound to a uniform reaches an invocation. *)
Lemma invoke_uniforms_irrelevant gct (ci : Conv2DInfo) (p : MaxPoolProgram)
    inputs (uniformValues uniformValues' : list (list Z)) gid fuel :
  MaxPoolProgram_new gct ci = Ok p →
  invoke p inputs uniformValues gid fuel = invoke p inputs uniformValues' gid fuel.
Proof.
  intros Hnew. unfold invoke. apply main_agree.
  - by rewrite !shaderGlobals_strides.
  - by rewrite !shaderGlobals_pads.
  - by rewrite !shaderGlobals_initializationValue.
  - rewrite !shaderGlobals_x. unfold global_buffer, hostGlobals.
    destruct (MaxPoolProgram_new_fields _ _ _ Hnew) as (_ & _ & _ & -> & -> & _).
    change (snd <$> Declarations.parse _)
      with ["inpShape"; "outShape"; "pad"; "stride"].
    by rewrite !lookup_union, !uniforms_not_x.
Qed.

Lemma hostGlobals_x gct (ci : Conv2DInfo) (p : MaxPoolProgram)
    (x : Z → float) (others : list (Z → float)) (uniformValues : list (list Z)) :
  MaxPoolProgram_new gct ci = Ok p →
  hostGlobals p (x :: others) uniformValues !! "x" = Some (GBuffer x).
Proof.
  intros Hnew. unfold hostGlobals.
  destruct (MaxPoolProgram_new_fields _ _ _ Hnew) as (_ & _ & _ & -> & _).
  rewrite lookup_union. cbn [fmap list_fmap zip zip_with].
  rewrite list_to_map_cons, lookup_insert_eq. by destruct (_ !! "x").
Qed.

Lemma foldM_pure {B : Type} (f : B → float → option float) (h : float → B → float)
    (acc : float) (l : list B) :
  (∀ b m, f b m = Some (h m b)) → foldM f acc l = Some (foldl h acc l).
Proof.
  intros Hf. revert acc. induction l as [|b l IH]; intros acc; simpl; [done|].
  rewrite Hf. simpl. apply IH.
Qed.

(** What one invocation writes: at the flat index of its coordinates, the
    maximum from 0.0 over the cells of its window. *)
Lemma invoke_pooled gct (ci : Conv2DInfo) (p : MaxPoolProgram) (B H W C : Z)
    (xShape : list Z) (x : Z → float) (others : list (Z → float))
    (uniformValues : list (list Z)) (gid : uvec3) (fuel : nat) :
  MaxPoolProgram_new gct ci = Ok p →
  outShape ci = [B; H; W; C] →
  C ≠ 0 →
  ivec4 (inShape ci) = Some xShape →
  loop_ok (effectiveFilterHeight ci) (dilationHeight ci) fuel →
  loop_ok (effectiveFilterWidth ci) (dilationWidth ci) fuel →
  let d0 := uint32 (gz gid / C) in
  let d3 := uint32 (gz gid - uint32 (d0 * C)) in
  let coords := [int32 d0; int32 (gx gid); int32 (gy gid); int32 d3] in
  let xRCorner := int32 (int32 (int32 (gx gid) * strideHeight ci) - top (padInfo ci)) in
  let xCCorner := int32 (int32 (int32 (gy gid) * strideWidth ci) - left (padInfo ci)) in
  invoke p (x :: others) uniformValues gid fuel =
    Some (uint32 (getFlatIndex coords [B; H; W; C]),
          pooled x xShape (inWidth ci) (int32 d0) (int32 d3)
                 (windowCells (userCode p) xRCorner xCCorner)).
Proof.
  intros Hnew Hshape HC Hx Hrows Hcols d0 d3 coords xRCorner xCCorner.
  rewrite (invoke_built _ _ _ _ _ _ _ _ _ gid fuel Hnew Hshape HC).
  fold d0 d3 coords xRCorner xCCorner.
  destruct (MaxPoolProgram_new_fields _ _ _ Hnew)
    as (_ & _ & _ & _ & _ & _ & _ & _ & HiW & _ & HxS & _ & HeH & HeW & HdH & HdW).
  rewrite windowLoop_cells by (by rewrite ?HeH, ?HeW, ?HdH, ?HdW).
  unfold pooled.
  rewrite (foldM_pure _
             (λ m rc, float_max (paddedRead x xShape (inWidth ci) (int32 d0) (int32 d3) rc) m));
    [done|].
  intros [r c] m. unfold paddedRead. cbn [fst snd]. rewrite <- HiW.
  case_decide as Hcol.
  - by rewrite getValue_outside.
  - erewrite getValue_inside; [done| |by rewrite HxS|lia].
    by eapply hostGlobals_x.
Qed.

End ShaderProperties.

(** ** Boundaries of the window *)





(** ** Uniforms *)

(** C10. The template instance carries the strides, the padding, the
    dilations, the effective filter sizes and both shapes of the geometry as
    literals; [main] and [getValue] read the constants [strides] and [pads]
    declared from them, never the uniforms [pad] and [stride].  So two runs
    of an invocation that differ only in the values bound to [pad] and
    [stride] make the same write. *)
Theorem uniform_independence {float : Type} `{!Float float}
    gct (ci : Conv2DInfo) (p : MaxPoolProgram) (inputs : list (Z → float))
    (inpShape_ outShape_ pad_ stride_ pad' stride' : list Z) (gid : uvec3) (fuel : nat) :
  MaxPoolProgram_new gct ci = Ok p →
  (uc_strides (userCode p) = (strideHeight ci, strideWidth ci) ∧
   uc_pads (userCode p) = (top (padInfo ci), left (padInfo ci)) ∧
   uc_dilationHeight (userCode p) = dilationHeight ci ∧
   uc_dilationWidth (userCode p) = dilationWidth ci ∧
   uc_effectiveFilterHeight (userCode p) = effectiveFilterHeight ci ∧
   uc_effectiveFilterWidth (userCode p) = effectiveFilterWidth ci ∧
   uc_xShape (userCode p) = inShape ci ∧
   uc_outputShape (userCode p) = (λ i, outShape ci !! i) <$> [0; 1; 2; 3]%nat) ∧
  (snd <$> Declarations.parse (uniforms p) = ["inpShape"; "outShape"; "pad"; "stride"] ∧
   invoke p inputs [inpShape_; outShape_; pad_; stride_] gid fuel
     = invoke p inputs [inpShape_; outShape_; pad'; stride'] gid fuel).
Proof.
  intros Hnew.
  destruct (MaxPoolProgram_new_fields _ _ _ Hnew)
    as (_ & _ & _ & _ & Hu & _ & ? & ? & _ & _ & ? & ? & ? & ? & ? & ?).
  split; [done|]. split; [by rewrite Hu|].
  by eapply invoke_uniforms_irrelevant.
Qed.

Lemma uniform_independence_witness :
  (uc_strides (userCode scenario_program) = (2, 2) ∧
   uc_pads (userCode scenario_program) = (0, 0) ∧
   uc_dilationHeight (userCode scenario_program) = 1 ∧
   uc_dilationWidth (userCode scenario_program) = 1 ∧
   uc_effectiveFilterHeight (userCode scenario_program) = 2 ∧
   uc_effectiveFilterWidth (userCode scenario_program) = 2 ∧
   uc_xShape (userCode scenario_program) = [1; 4; 4; 1] ∧
   uc_outputShape (userCode scenario_program) = [Some 1; Some 2; Some 2; Some 1]) ∧
  (snd <$> Declarations.parse (uniforms scenario_program)
     = ["inpShape"; "outShape"; "pad"; "stride"] ∧
   invoke scenario_program [scenario_input] [[1; 4; 4; 1]; [1; 2; 2; 1]; [0; 0]; [2; 2]]
          {| gx := 1; gy := 1; gz := 0 |} 3
     = invoke scenario_program [scenario_input] [[1; 4; 4; 1]; [1; 2; 2; 1]; [7; 7]; [1; 5]]
          {| gx := 1; gy := 1; gz := 0 |} 3).
Proof.
  apply (uniform_independence (float := PrimFloat.float)
           always_ivec4 scenario scenario_program).
  vm_compute; reflexivity.
Defined.

(** ** Where the code departs from its specification *)

(** C3 (defect).  The inner loop steps [wC] by [dilationWidth] and then
    reads column [xCCorner + wC * dilationWidth], scaling the offset by the
    dilation a second time; the row is [xRCorner + wR].  With
    [effectiveFilterWidth = 3] and [dilationWidth = 2] the loop offsets are 0
    and 2, but the columns read from corner 0 are 0 and 4, not 0 and 2: the
    first output of the row [1, 9, 7, 3, 5] is max(1, 5) = 5, where the
    window {0, 2} holds 1 and 7. *)
Theorem dilated_columns_scaled_twice :
  ∃ p, MaxPoolProgram_new always_ivec4 dilated = Ok p ∧
    loopIndices (effectiveFilterWidth dilated) (dilationWidth dilated) = [0; 2] ∧
    visitedCells (userCode p) 3 0 0 = Some [(0, 0); (0, 4)] ∧
    invoke p [dilated_input] dilated_uniforms {| gx := 0; gy := 0; gz := 0 |} 3
      = Some (0, 5%float) ∧
    float_max (dilated_input 2) (float_max (dilated_input 0) float_zero) = 7%float.
Proof.
  eexists. split; [vm_compute; reflexivity|].
  split_and!; vm_compute; reflexivity.
Qed.

(** C4 (defect).  [main] writes without comparing its coordinates to the
    output shape, and the grid is rounded up to whole tiles.  For the output
    shape [1, 3, 3, 1] the grid has 4 x 4 x 1 invocations for 9 elements:
    flat index 3 is written twice, by the invocations (0, 3, 0) and
    (1, 0, 0) with different values, and the indices 9 to 12 lie outside the
    output. *)
Theorem odd_output_written_twice_and_outside :
  ∃ p, MaxPoolProgram_new always_ivec4 odd_output = Ok p ∧
    product (outShape odd_output) = 9 ∧
    dispatch p = (Some 2, Some 2, Some 1) ∧
    (λ gids : list uvec3, length gids) <$> globalInvocationIDs p = Some 16%nat ∧
    (λ writes : list (Z * PrimFloat.float), writes.*1)
      <$> execute p [scenario_input] odd_uniforms 2
      = Some [0; 1; 2; 3; 3; 4; 5; 6; 6; 7; 8; 9; 9; 10; 11; 12] ∧
    invoke p [scenario_input] odd_uniforms {| gx := 0; gy := 3; gz := 0 |} 2
      = Some (3, 0%float) ∧
    invoke p [scenario_input] odd_uniforms {| gx := 1; gy := 0; gz := 0 |} 2
      = Some (3, 4%float) ∧
    invoke p [scenario_input] odd_uniforms {| gx := 3; gy := 3; gz := 0 |} 2
      = Some (12, 0%float).
Proof.
  eexists. split; [vm_compute; reflexivity|].
  split_and!; vm_compute; reflexivity.
Qed.

(** ** What the code does guarantee *)





(** The scenarios of the specification, run.  Without padding the four outputs
    are the maxima of the four 2x2 blocks of the input; with one row and one
    column of padding the top-left window holds the skipped row -1, the
    column -1 read as 0.0, and the element (0, 0). *)
Theorem scenario_output :
  MaxPoolProgram_new always_ivec4 scenario = Ok scenario_program ∧
  execute scenario_program [scenario_input] scenario_uniforms 3
    = Some [(0, 6%float); (1, 8%float); (2, 14%float); (3, 16%float)] ∧
  ∃ p, MaxPoolProgram_new always_ivec4 scenario_padded = Ok p ∧
    visitedCells (userCode p) 3 (-1) (-1) = Some [(0, -1); (0, 0)] ∧
    execute p [scenario_input] scenario_uniforms 3
      = Some [(0, 1%float); (1, 3%float); (2, 9%float); (3, 11%float)].
Proof.
  split; [vm_compute; reflexivity|]. split; [vm_compute; reflexivity|].
  eexists. split; [vm_compute; reflexivity|].
  split; vm_compute; reflexivity.
Qed.

(** * Further properties of the grid and of the shader *)

(** ** Row-major indices of rank 4 *)

Lemma getFlatIndex_rank4 (b r c ch B H W C : Z) :
  getFlatIndex [b; r; c; ch] [B; H; W; C] = ((b * H + r) * W + c) * C + ch.
Proof. unfold getFlatIndex. simpl. lia. Qed.

Lemma getFlatIndex_range (b r c ch B H W C : Z) :
  0 <= b < B → 0 <= r < H → 0 <= c < W → 0 <= ch < C →
  0 <= getFlatIndex [b; r; c; ch] [B; H; W; C] < B * H * W * C.
Proof.
  intros Hb Hr Hc Hch. rewrite getFlatIndex_rank4.
  assert (H2 : 0 <= b * H + r <= B * H - 1) by nia.
  assert (H3 : 0 <= (b * H + r) * W + c <= B * H * W - 1) by nia.
  assert (H4 : 0 <= ((b * H + r) * W + c) * C + ch <= B * H * W * C - 1) by nia.
  lia.
Qed.

Lemma getFlatIndex_inj (b r c ch b' r' c' ch' B H W C : Z) :
  0 <= r < H → 0 <= c < W → 0 <= ch < C →
  0 <= r' < H → 0 <= c' < W → 0 <= ch' < C →
  getFlatIndex [b; r; c; ch] [B; H; W; C] = getFlatIndex [b'; r'; c'; ch'] [B; H; W; C] →
  b = b' ∧ r = r' ∧ c = c' ∧ ch = ch'.
Proof.
  intros Hr Hc Hch Hr' Hc' Hch'. rewrite !getFlatIndex_rank4. intros Heq.
  destruct (Z.div_mod_unique C ((b * H + r) * W + c) ((b' * H + r') * W + c') ch ch')
    as [Heq1 ?]; [lia..|].
  destruct (Z.div_mod_unique W (b * H + r) (b' * H + r') c c')
    as [Heq2 ?]; [lia..|].
  destruct (Z.div_mod_unique H b b' r r') as [Heq3 ?]; [lia..|].
  done.
Qed.

Lemma getFlatIndex_surj (i B H W C : Z) :
  0 < H → 0 < W → 0 < C →
  0 <= i < B * H * W * C →
  ∃ b r c ch,
    0 <= b < B ∧ 0 <= r < H ∧ 0 <= c < W ∧ 0 <= ch < C ∧
    getFlatIndex [b; r; c; ch] [B; H; W; C] = i.
Proof.
  intros HH HW HC Hi.
  exists (i / C / W / H), (i / C / W mod H), (i / C mod W), (i mod C).
  rewrite getFlatIndex_rank4.
  pose proof (Z.div_mod i C ltac:(lia)) as H1.
  pose proof (Z.mod_pos_bound i C HC) as M1.
  pose proof (Z.div_mod (i / C) W ltac:(lia)) as H2.
  pose proof (Z.mod_pos_bound (i / C) W HW) as M2.
  pose proof (Z.div_mod (i / C / W) H ltac:(lia)) as H3.
  pose proof (Z.mod_pos_bound (i / C / W) H HH) as M3.
  assert (Q1 : 0 <= i / C) by (apply Z.div_pos; lia).
  assert (Q2 : 0 <= i / C / W) by (apply Z.div_pos; lia).
  assert (Q3 : 0 <= i / C / W / H) by (apply Z.div_pos; lia).
  assert (U1 : i / C < B * H * W) by (apply Z.div_lt_upper_bound; lia).
  assert (U2 : i / C / W < B * H) by (apply Z.div_lt_upper_bound; lia).
  assert (U3 : i / C / W / H < B) by (apply Z.div_lt_upper_bound; lia).
  split_and!; lia.
Qed.

(** The same one step past the height and the width. *)
Lemma getFlatIndex_rounded (b r c ch B H W C : Z) :
  0 <= b < B → 0 <= r <= H → 0 <= c <= W → 0 <= ch < C →
  0 <= getFlatIndex [b; r; c; ch] [B; H; W; C] < B * (H + 1) * (W + 1) * C.
Proof.
  intros Hb Hr Hc Hch. rewrite getFlatIndex_rank4.
  assert (H1 : 0 <= b * H <= (B - 1) * H).
  { split; [apply Z.mul_nonneg_nonneg; lia|]. apply Z.mul_le_mono_nonneg_r; lia. }
  assert (H2 : 0 <= b * H + r <= B * (H + 1) - 1) by lia.
  set (e2 := b * H + r) in *. set (n2 := B * (H + 1)) in *.
  assert (H3a : 0 <= e2 * W <= (n2 - 1) * W).
  { split; [apply Z.mul_nonneg_nonneg; lia|]. apply Z.mul_le_mono_nonneg_r; lia. }
  assert (H3 : 0 <= e2 * W + c <= n2 * (W + 1) - 1) by lia.
  set (e3 := e2 * W + c) in *. set (n3 := n2 * (W + 1)) in *.
  assert (H4a : 0 <= e3 * C <= (n3 - 1) * C).
  { split; [apply Z.mul_nonneg_nonneg; lia|]. apply Z.mul_le_mono_nonneg_r; lia. }
  lia.
Qed.

Lemma mapM_total {A B : Type} (f : A → option B) (h : A → B) (l : list A) :
  (∀ a, a ∈ l → f a = Some (h a)) → mapM f l = Some (h <$> l).
Proof.
  induction l as [|a l IH]; intros Hf; simpl; [done|].
  rewrite Hf by apply list_elem_of_here. simpl.
  rewrite IH; [done|]. intros b Hb. apply Hf. by apply list_elem_of_further.
Qed.

Lemma is_ceil_2 (n c : Z) : is_ceil n 2 c → c * 2 = n + n mod 2.
Proof.
  unfold is_ceil. intros Hc.
  pose proof (Z.div_mod n 2 ltac:(lia)). pose proof (Z.mod_pos_bound n 2 ltac:(lia)).
  lia.
Qed.

Lemma is_ceil_1 (n c : Z) : is_ceil n 1 c → c * 1 = n.
Proof. unfold is_ceil. lia. Qed.

(** The grid of a program built for a rank-4 output shape: the height and
    the width rounded up to even, and one invocation per (batch, channel)
    pair; no id occurs twice. *)
Lemma grid_built gct (ci : Conv2DInfo) (p : MaxPoolProgram) (B H W C : Z) :
  MaxPoolProgram_new gct ci = Ok p →
  outShape ci = [B; H; W; C] →
  ∃ gids, globalInvocationIDs p = Some gids ∧ NoDup gids ∧
    ∀ gid, gid ∈ gids ↔
      0 <= gx gid < H + H mod 2 ∧ 0 <= gy gid < W + W mod 2 ∧ 0 <= gz gid < B * C.
Proof.
  intros Hnew Hshape.
  destruct (MaxPoolProgram_new_fields _ _ _ Hnew) as (Hd & _ & _ & _ & _ & Ht & _).
  rewrite Hshape, computeDispatch_rank4 in Hd. injection Hd as Hd.
  unfold globalInvocationIDs. rewrite <- Hd, Ht.
  cbn [lookup list_lookup mbind option_bind].
  rewrite (is_ceil_2 _ _ (Qceiling_is_ceil H 2)).
  rewrite (is_ceil_2 _ _ (Qceiling_is_ceil W 2)).
  rewrite (is_ceil_1 _ _ (Qceiling_is_ceil (B * C) 1)).
  eexists. split; [reflexivity|]. split.
  - apply NoDup_bind; [| |apply NoDup_seqZ].
    + intros x1 x2 gid _ _ H1 H2.
      apply list_elem_of_bind in H1 as (y1 & H1 & _).
      apply list_elem_of_bind in H1 as (z1 & H1 & _).
      apply list_elem_of_singleton in H1.
      apply list_elem_of_bind in H2 as (y2 & H2 & _).
      apply list_elem_of_bind in H2 as (z2 & H2 & _).
      apply list_elem_of_singleton in H2. congruence.
    + intros x1 _. apply NoDup_bind; [| |apply NoDup_seqZ].
      * intros y1 y2 gid _ _ H1 H2.
        apply list_elem_of_bind in H1 as (z1 & H1 & _).
        apply list_elem_of_singleton in H1.
        apply list_elem_of_bind in H2 as (z2 & H2 & _).
        apply list_elem_of_singleton in H2. congruence.
      * intros y1 _. apply NoDup_bind; [| |apply NoDup_seqZ].
        -- intros z1 z2 gid _ _ H1 H2.
           apply list_elem_of_singleton in H1.
           apply list_elem_of_singleton in H2. congruence.
        -- intros z1 _. apply NoDup_singleton.
  - intros gid. split.
    + intros Hin.
      apply list_elem_of_bind in Hin as (x1 & Hin & Hx%elem_of_seqZ).
      apply list_elem_of_bind in Hin as (y1 & Hin & Hy%elem_of_seqZ).
      apply list_elem_of_bind in Hin as (z1 & Hin & Hz%elem_of_seqZ).
      apply list_elem_of_singleton in Hin. subst gid. simpl. lia.
    + intros (Hx & Hy & Hz). destruct gid as [x1 y1 z1]. simpl in *.
      apply list_elem_of_bind. exists x1. split; [|apply elem_of_seqZ; lia].
      apply list_elem_of_bind. exists y1. split; [|apply elem_of_seqZ; lia].
      apply list_elem_of_bind. exists z1. split; [|apply elem_of_seqZ; lia].
      by apply list_elem_of_singleton.
Qed.

(** The write of an invocation whose coordinates and flat index stay clear
    of the 32-bit wrap-around. *)
Lemma invoke_at {float : Type} `{!Float float}
    gct (ci : Conv2DInfo) (p : MaxPoolProgram) (B H W C : Z) (xShape : list Z)
    (x : Z → float) (others : list (Z → float)) (uniformValues : list (list Z))
    (gid : uvec3) (fuel : nat) :
  MaxPoolProgram_new gct ci = Ok p →
  outShape ci = [B; H; W; C] →
  ivec4 (inShape ci) = Some xShape →
  loop_ok (effectiveFilterHeight ci) (dilationHeight ci) fuel →
  loop_ok (effectiveFilterWidth ci) (dilationWidth ci) fuel →
  0 < C → B * C <= 2 ^ 31 →
  0 <= gx gid < 2 ^ 31 → 0 <= gy gid < 2 ^ 31 → 0 <= gz gid < B * C →
  let b := gz gid / C in
  let ch := gz gid mod C in
  0 <= getFlatIndex [b; gx gid; gy gid; ch] [B; H; W; C] < 2 ^ 32 →
  let xRCorner := int32 (int32 (gx gid * strideHeight ci) - top (padInfo ci)) in
  let xCCorner := int32 (int32 (gy gid * strideWidth ci) - left (padInfo ci)) in
  invoke p (x :: others) uniformValues gid fuel =
    Some (getFlatIndex [b; gx gid; gy gid; ch] [B; H; W; C],
          pooled x xShape (inWidth ci) b ch (windowCells (userCode p) xRCorner xCCorner)).
Proof.
  intros Hnew Hshape Hx Hrows Hcols HC HBC Hgx Hgy Hgz b ch Hflat xRCorner xCCorner.
  rewrite (invoke_pooled _ _ _ B H W C xShape) by (done || lia).
  destruct (uint32_divmod (gz gid) C ltac:(lia) HC) as [-> ->].
  fold b ch.
  assert (Hb : 0 <= b < B).
  { unfold b. split; [apply Z.div_pos; lia|]. apply Z.div_lt_upper_bound; lia. }
  assert (Hch : 0 <= ch < C) by (apply Z.mod_pos_bound; lia).
  assert (B <= 2 ^ 31) by nia. assert (C <= 2 ^ 31) by nia.
  rewrite (int32_small b), (int32_small ch), (int32_small (gx gid)),
    (int32_small (gy gid)) by lia.
  by rewrite uint32_small by lia.
Qed.

Lemma divmod_pair (b ch C : Z) :
  0 <= ch < C → (b * C + ch) / C = b ∧ (b * C + ch) mod C = ch.
Proof.
  intros Hch. split; symmetry.
  - apply (Z.div_unique _ _ _ ch); lia.
  - apply (Z.mod_unique _ _ b); lia.
Qed.





(** X6. Reads stay inside the input.  For an input shape
    [iB, inHeight, inWidth, iC] with at least the batches and channels of
    the output, an invocation of the grid reads the buffer [x] only at flat
    indices of the input: its write is the same for any two buffers that
    agree there, whatever else the host binds. *)
Theorem reads_within_input {float : Type} `{!Float float}
    gct (ci : Conv2DInfo) (p : MaxPoolProgram) (B H W C iB iC : Z)
    (x x' : Z → float) (others others' : list (Z → float))
    (uniformValues uniformValues' : list (list Z))
    (gids : list uvec3) (gid : uvec3) (fuel : nat) :
  MaxPoolProgram_new gct ci = Ok p →
  outShape ci = [B; H; W; C] →
  inShape ci = [iB; inHeight ci; inWidth ci; iC] →
  0 < C → B <= iB → C <= iC → B * C <= 2 ^ 31 →
  globalInvocationIDs p = Some gids → gid ∈ gids →
  (∀ i, 0 <= i < product (inShape ci) → x i = x' i) →
  invoke p (x :: others) uniformValues gid fuel
    = invoke p (x' :: others') uniformValues' gid fuel.
Proof.
  intros Hnew Hshape Hin HC HB HiC HBC Hgids Hgid Hagree.
  destruct (grid_built _ _ _ _ _ _ _ Hnew Hshape) as (gids' & Hgids' & _ & Hmem).
  rewrite Hgids in Hgids'. injection Hgids' as <-.
  apply Hmem in Hgid as (_ & _ & Hz).
  rewrite !(invoke_built _ _ _ _ _ _ _ _ _ gid fuel Hnew Hshape) by lia.
  destruct (uint32_divmod (gz gid) C ltac:(lia) HC) as [-> ->].
  assert (Hb : 0 <= gz gid / C < B).
  { split; [apply Z.div_pos; lia|]. apply Z.div_lt_upper_bound; lia. }
  assert (Hch : 0 <= gz gid mod C < C) by (apply Z.mod_pos_bound; lia).
  assert (B <= 2 ^ 31) by nia. assert (C <= 2 ^ 31) by nia.
  rewrite (int32_small (gz gid / C)), (int32_small (gz gid mod C)) by lia.
  destruct (MaxPoolProgram_new_fields _ _ _ Hnew)
    as (_ & _ & _ & _ & _ & _ & _ & _ & HiW & HiH & HxS & _).
  apply option_bind_ext; [done|].
  unfold windowLoop. apply forLoop_ext. intros wR acc.
  unfold windowRow. case_decide as Hrow; [done|].
  apply forLoop_ext. intros wC acc'.
  set (xR := int32 (_ + wR)) in *.
  set (xC := int32 (_ + int32 (wC * _))).
  destruct (decide (xC < 0 ∨ xC >= uc_inWidth (userCode p))) as [Hcol|Hcol].
  - by rewrite !getValue_outside.
  - rewrite (getValue_inside _ _ x (inShape ci)), (getValue_inside _ _ x' (inShape ci));
      [| by eapply hostGlobals_x | by rewrite HxS, Hin | lia
       | by eapply hostGlobals_x | by rewrite HxS, Hin | lia].
    rewrite Hagree; [done|].
    rewrite Hin. unfold product. simpl. rewrite Z.mul_1_r, !Z.mul_assoc.
    apply getFlatIndex_range; lia.
Qed.

Lemma reads_within_input_witness :
  let gid := {| gx := 0; gy := 0; gz := 0 |} in
  invoke scenario_program [scenario_input] scenario_uniforms gid 3
    = invoke scenario_program [scenario_input_beyond; scenario_input] [] gid 3.
Proof.
  refine (reads_within_input (float := PrimFloat.float)
            always_ivec4 scenario scenario_program 1 2 2 1 1 1
            scenario_input scenario_input_beyond [] [scenario_input]
            scenario_uniforms [] _ {| gx := 0; gy := 0; gz := 0 |} 3
            _ _ _ _ _ _ _ _ _ _).
  - vm_compute; reflexivity.
  - reflexivity.
  - reflexivity.
  - lia.
  - lia.
  - lia.
  - vm_compute; discriminate.
  - vm_compute; reflexivity.
  - apply list_elem_of_here.
  - intros i Hi. unfold scenario_input_beyond.
    change (product (inShape scenario)) with 16 in Hi.
    by rewrite decide_True by lia.
Defined.

(** The emitted function returns as many coordinates as the shape it was
    generated for has dimensions. *)
Lemma callCoords_length gct (outputShape shape : list Z) (f : CoordsFunction)
    (gid : uvec3) (coords : list Z) :
  generateGetOutputCoords gct outputShape shape = Ok f →
  callCoords f gid = Some coords →
  length coords = length shape.
Proof.
  unfold generateGetOutputCoords. intros Hf Hcall.
  destruct (gct (length shape)) as [dtype|msg]; [|done].
  injection Hf as <-. unfold callCoords in Hcall. cbn [cf_body cf_dimensions] in Hcall.
  destruct (execs gid ∅ _) as [σ|]; [|done]. cbn [mbind option_bind] in Hcall.
  destruct (mapM _ _) as [ds|] eqn:Hds; [|done]. cbn [mbind option_bind] in Hcall.
  injection Hcall as <-. apply length_mapM in Hds.
  by rewrite length_fmap, <- Hds, length_fmap, length_seq.
Qed.

(** X7. Only a program built for an output shape of rank 4 can run: the
    constructor accepts any rank, but [main] takes the result of
    [getOutputCoords] as an [ivec4]. *)
Theorem invocation_requires_rank4 {float : Type} `{!Float float}
    gct (ci : Conv2DInfo) (p : MaxPoolProgram) (inputs : list (Z → float))
    (uniformValues : list (list Z)) (gid : uvec3) (fuel : nat) (w : Z * float) :
  MaxPoolProgram_new gct ci = Ok p →
  invoke p inputs uniformValues gid fuel = Some w →
  length (outShape ci) = 4%nat.
Proof.
  intros Hnew Hrun.
  destruct (MaxPoolProgram_new_fields _ _ _ Hnew) as (_ & Hf & _).
  unfold invoke, main in Hrun.
  destruct (callCoords _ gid) as [coords|] eqn:Hcoords; [|done].
  cbn [mbind option_bind] in Hrun.
  rewrite <- (callCoords_length _ _ _ _ _ _ Hf Hcoords).
  destruct (decide (length coords = 4%nat)) as [Hlen|Hlen]; [done|].
  by rewrite option_guard_False in Hrun.
Qed.

Lemma invocation_requires_rank4_witness :
  invoke scenario_program [scenario_input] scenario_uniforms
    {| gx := 0; gy := 0; gz := 0 |} 3 = Some (0, 6%float) ∧
  length (outShape scenario) = 4%nat.
Proof.
  split; [vm_compute; reflexivity|].
  refine (invocation_requires_rank4 (float := PrimFloat.float)
            always_ivec4 scenario scenario_program [scenario_input] scenario_uniforms
            {| gx := 0; gy := 0; gz := 0 |} 3 (0, 6%float) _ _).
  - vm_compute; reflexivity.
  - vm_compute; reflexivity.
Defined.

(** X8. A short output shape is not rejected: reading past its end gives
    [undefined], the product and its ceiling are [NaN], and the program has
    a dispatch entry that is no number -- the first for a rank below 2, the
    second below 3, the third below 4 -- and then no grid. *)
Theorem short_shape_dispatch_is_NaN gct (ci : Conv2DInfo) (p : MaxPoolProgram) :
  MaxPoolProgram_new gct ci = Ok p →
  ∃ d0 d1 d2, dispatch p = (d0, d1, d2) ∧
    (d0 = NaN ↔ (length (outShape ci) < 2)%nat) ∧
    (d1 = NaN ↔ (length (outShape ci) < 3)%nat) ∧
    (d2 = NaN ↔ (length (outShape ci) < 4)%nat) ∧
    (globalInvocationIDs p = None ↔ (length (outShape ci) < 4)%nat).
Proof.
  intros Hnew.
  destruct (MaxPoolProgram_new_fields _ _ _ Hnew) as (Hd & _ & _ & _ & _ & Ht & _).
  unfold globalInvocationIDs. rewrite Ht.
  destruct (dispatch p) as [[d0 d1] d2]. exists d0, d1, d2. split; [done|].
  destruct (outShape ci) as [|B [|H [|W [|C rest]]]];
    cbv -[Z.mul Qceiling Qdiv inject_Z] in Hd; injection Hd as <- <- <-;
    cbn [lookup list_lookup mbind option_bind length]; unfold NaN;
    split_and!; split; (done || lia).
Qed.

Lemma short_shape_dispatch_is_NaN_witness :
  ∃ p, MaxPoolProgram_new always_ivec4 scenario_outShape_rank3 = Ok p ∧
    ∃ d0 d1 d2, dispatch p = (d0, d1, d2) ∧
      (d0 = NaN ↔ (length (outShape scenario_outShape_rank3) < 2)%nat) ∧
      (d1 = NaN ↔ (length (outShape scenario_outShape_rank3) < 3)%nat) ∧
      (d2 = NaN ↔ (length (outShape scenario_outShape_rank3) < 4)%nat) ∧
      (globalInvocationIDs p = None ↔ (length (outShape scenario_outShape_rank3) < 4)%nat).
Proof.
  destruct (MaxPoolProgram_new always_ivec4 scenario_outShape_rank3) as [p|msg] eqn:Hnew.
  - exists p. split; [reflexivity|].
    exact (short_shape_dispatch_is_NaN always_ivec4 scenario_outShape_rank3 p Hnew).
  - exfalso. vm_compute in Hnew. discriminate.
Defined.

Section Stall.

Context {A : Type}.

(** A loop that does not advance does not end. *)
Lemma forLoop_zero_step (fuel : nat) (bound : Z) (body : Z → A → option A) (acc : A) :
  0 < bound → forLoop fuel bound 0 body 0 acc = None.
Proof.
  intros Hbound. revert acc. induction fuel as [|fuel IH]; intros acc; [done|].
  cbn [forLoop]. rewrite decide_True by done.
  destruct (body 0 acc) as [acc'|]; [|done]. cbn [mbind option_bind].
  change (int32 (0 + 0)) with 0. apply IH.
Qed.

(** A loop whose body is stuck at a pass it reaches does not end. *)
Lemma forLoop_stuck (bound step : Z) (body : Z → A → option A) (j : Z) :
  0 < step → bound + step <= 2 ^ 31 →
  j * step < bound →
  (∀ acc, body (j * step) acc = None) →
  ∀ (fuel : nat) (k : Z) (acc : A),
    0 <= k <= j → forLoop fuel bound step body (k * step) acc = None.
Proof.
  intros Hstep Hbound Hj Hstuck.
  induction fuel as [|fuel IH]; intros k acc Hk; [done|].
  cbn [forLoop]. rewrite decide_True by nia.
  destruct (decide (k = j)) as [->|Hne]; [by rewrite Hstuck|].
  destruct (body (k * step) acc) as [acc'|]; [|done]. cbn [mbind option_bind].
  rewrite int32_small by nia.
  replace (k * step + step) with ((k + 1) * step) by lia.
  apply IH. lia.
Qed.

End Stall.



Section Pooled.

Context {float : Type} `{!Float float}.

(** The maximum is one of the values it was taken over, or the seed. *)
Lemma foldl_max_selected (x : Z → float) (xShape : list Z) (inWidth batch d : Z)
    (cells : list (Z * Z)) (m : float) :
  (∀ a b, float_max a b = a ∨ float_max a b = b) →
  let v := foldl (λ m rc, float_max (paddedRead x xShape inWidth batch d rc) m) m cells in
  v = m ∨ v = float_zero ∨
  ∃ rc, rc ∈ cells ∧ 0 <= rc.2 < inWidth ∧
        v = x (getFlatIndex [batch; rc.1; rc.2; d] xShape).
Proof.
  intros Hmax. revert m. induction cells as [|rc cells IH]; intros m; [by left|].
  cbn [foldl]. set (m' := float_max _ m).
  destruct (IH m') as [Hv|[Hv|(rc' & Hin & Hcol & Hv)]].
  - rewrite Hv. unfold m'. destruct (Hmax (paddedRead x xShape inWidth batch d rc) m)
      as [->| ->]; [|by left].
    right. unfold paddedRead. case_decide as Hcol; [by left|right].
    exists rc. split; [apply list_elem_of_here|]. split; [lia|done].
  - by right; left.
  - right; right. exists rc'. split; [by apply list_elem_of_further|done].
Qed.

(** Values that do not exceed the seed leave it in place. *)
Lemma foldl_max_zero (x : Z → float) (xShape : list Z) (inWidth batch d : Z)
    (cells : list (Z * Z)) :
  float_max float_zero float_zero = float_zero →
  (∀ i, float_max (x i) float_zero = float_zero) →
  pooled x xShape inWidth batch d cells = float_zero.
Proof.
  intros H0 Hx. unfold pooled. induction cells as [|rc cells IH]; [done|].
  cbn [foldl]. unfold paddedRead at 2. case_decide; by rewrite ?H0, ?Hx.
Qed.

End Pooled.





Lemma pooled_ext {float : Type} `{!Float float} (x x' : Z → float) (xShape : list Z)
    (inWidth batch d : Z) (cells : list (Z * Z)) :
  (∀ rc, rc ∈ cells → 0 <= rc.2 < inWidth →
     x (getFlatIndex [batch; rc.1; rc.2; d] xShape)
       = x' (getFlatIndex [batch; rc.1; rc.2; d] xShape)) →
  pooled x xShape inWidth batch d cells = pooled x' xShape inWidth batch d cells.
Proof.
  unfold pooled. generalize (@float_zero float _).
  induction cells as [|rc cells IH]; intros m Hagree; [done|].
  cbn [foldl].
  replace (paddedRead x' xShape inWidth batch d rc)
    with (paddedRead x xShape inWidth batch d rc).
  - apply IH. intros rc' Hin. apply Hagree. by apply list_elem_of_further.
  - unfold paddedRead. case_decide; [done|].
    apply Hagree; [apply list_elem_of_here|lia].
Qed.

(** X12. Pooling is local: the write of an invocation depends on the input
    only through the elements at the cells of its window that lie inside
    the input, in its own batch and channel. *)
Theorem write_depends_on_window_only {float : Type} `{!Float float}
    gct (ci : Conv2DInfo) (p : MaxPoolProgram) (B H W C : Z) (xShape : list Z)
    (x x' : Z → float) (others others' : list (Z → float))
    (uniformValues : list (list Z)) (gid : uvec3) (fuel : nat) :
  MaxPoolProgram_new gct ci = Ok p →
  outShape ci = [B; H; W; C] →
  ivec4 (inShape ci) = Some xShape →
  loop_ok (effectiveFilterHeight ci) (dilationHeight ci) fuel →
  loop_ok (effectiveFilterWidth ci) (dilationWidth ci) fuel →
  0 < C → B * C <= 2 ^ 31 → 0 <= gz gid < B * C →
  let xRCorner := int32 (int32 (int32 (gx gid) * strideHeight ci) - top (padInfo ci)) in
  let xCCorner := int32 (int32 (int32 (gy gid) * strideWidth ci) - left (padInfo ci)) in
  (∀ rc, rc ∈ windowCells (userCode p) xRCorner xCCorner →
     0 <= rc.1 < inHeight ci → 0 <= rc.2 < inWidth ci →
     x (getFlatIndex [gz gid / C; rc.1; rc.2; gz gid mod C] xShape)
       = x' (getFlatIndex [gz gid / C; rc.1; rc.2; gz gid mod C] xShape)) →
  invoke p (x :: others) uniformValues gid fuel
    = invoke p (x' :: others') uniformValues gid fuel.
Proof.
  intros Hnew Hshape Hx Hrows Hcols HC HBC Hz xRCorner xCCorner Hagree.
  rewrite !(invoke_pooled _ _ _ B H W C xShape) by (done || lia).
  fold xRCorner xCCorner.
  destruct (uint32_divmod (gz gid) C ltac:(lia) HC) as [-> ->].
  assert (Hb : 0 <= gz gid / C < B).
  { split; [apply Z.div_pos; lia|]. apply Z.div_lt_upper_bound; lia. }
  assert (Hch : 0 <= gz gid mod C < C) by (apply Z.mod_pos_bound; lia).
  assert (B <= 2 ^ 31) by nia. assert (C <= 2 ^ 31) by nia.
  rewrite (int32_small (gz gid / C)), (int32_small (gz gid mod C)) by lia.
  destruct (MaxPoolProgram_new_fields _ _ _ Hnew)
    as (_ & _ & _ & _ & _ & _ & _ & _ & _ & HiH & _).
  do 2 f_equal. apply pooled_ext. intros rc Hin Hcol.
  apply Hagree; [done| |done]. rewrite <- HiH. by eapply windowCells_rows.
Qed.

Lemma write_depends_on_window_only_witness :
  let gid := {| gx := 1; gy := 1; gz := 0 |} in
  invoke scenario_program [scenario_input] scenario_uniforms gid 3
    = invoke scenario_program [scenario_input_elsewhere] scenario_uniforms gid 3.
Proof.
  refine (write_depends_on_window_only (float := PrimFloat.float)
            always_ivec4 scenario scenario_program 1 2 2 1 [1; 4; 4; 1]
            scenario_input scenario_input_elsewhere [] []
            scenario_uniforms {| gx := 1; gy := 1; gz := 0 |} 3
            _ _ _ _ _ _ _ _ _).
  - vm_compute; reflexivity.
  - reflexivity.
  - reflexivity.
  - loop_ok_by_computation.
  - loop_ok_by_computation.
  - lia.
  - vm_compute; discriminate.
  - simpl; lia.
  - intros rc Hin _ _.
    change (rc ∈ [(2, 2); (2, 3); (3, 2); (3, 3)]) in Hin.
    repeat (apply elem_of_cons in Hin as [->|Hin]; [reflexivity|]).
    by apply elem_of_nil in Hin.
Defined.



(** X13. An output with a dimension of size 0 dispatches nothing: the grid is
    empty and no write is made -- so the division by the channel count that
    [getOutputCoords] holds is never run with a count of 0. *)
Theorem empty_output_writes_nothing {float : Type} `{!Float float}
    gct (ci : Conv2DInfo) (p : MaxPoolProgram) (B H W C : Z)
    (inputs : list (Z → float)) (uniformValues : list (list Z)) (fuel : nat) :
  MaxPoolProgram_new gct ci = Ok p →
  outShape ci = [B; H; W; C] →
  B = 0 ∨ H = 0 ∨ W = 0 ∨ C = 0 →
  globalInvocationIDs p = Some [] ∧
  execute p inputs uniformValues fuel = Some [].
Proof.
  intros Hnew Hshape Hzero.
  destruct (grid_built _ _ _ _ _ _ _ Hnew Hshape) as (gids & Hgids & _ & Hin).
  assert (gids = []) as ->.
  { destruct gids as [|gid gids]; [done|].
    destruct (Hin gid) as [Hgid _].
    specialize (Hgid (list_elem_of_here _ _)).
    pose proof (Z.mod_pos_bound H 2 ltac:(lia)). pose proof (Z.mod_pos_bound W 2 ltac:(lia)).
    destruct Hzero as [Hz|[Hz|[Hz|Hz]]]; rewrite Hz in *;
      rewrite ?Z.mod_0_l, ?Z.mul_0_l, ?Z.mul_0_r in * by lia; lia. }
  split; [done|]. unfold execute. by rewrite Hgids.
Qed.

Lemma empty_output_writes_nothing_witness :
  ∃ p, MaxPoolProgram_new always_ivec4 empty_output = Ok p ∧
    globalInvocationIDs p = Some [] ∧
    execute p [scenario_input] scenario_uniforms 3 = Some [].
Proof.
  destruct (MaxPoolProgram_new always_ivec4 empty_output) as [p|msg] eqn:Hnew.
  - exists p. split; [reflexivity|].
    refine (empty_output_writes_nothing (float := PrimFloat.float)
              always_ivec4 empty_output p 1 2 2 0 [scenario_input] scenario_uniforms 3
              Hnew _ _).
    + reflexivity.
    + by right; right; right.
  - exfalso. vm_compute in Hnew. discriminate.
Defined.
